(** * The hunger-games narrative engine: characters, checks and event resolution

    A shallow embedding of [game/Character.py], [game/Check.py] and
    [game/Game.py].  Python objects that are shared and mutated in place
    (characters, alliance lists) live in an explicit store; code that can raise
    runs in a small state-and-exception monad.  The collaborators whose code is
    not part of these three files (items, zones, the simulation state, events,
    the identifier registry, the random source) are interfaces: type classes
    whose methods are the calls the three files make on them. *)

From Stdlib Require Import ZArith Lia.
From stdpp Require Import gmap strings list fin_maps pretty.

Set Default Proof Using "Type".

(** ** Exceptions and the program monad *)

Inductive exn : Type :=
| ValueError (msg : string)
| IndexError (msg : string)
| AttributeError (msg : string)
| EventPartException (msg : string)
| RecursionError
| Exception (msg : string).

Inductive result (A : Type) : Type :=
| Ok (a : A)
| Raise (e : exn).
Arguments Ok {A} a.
Arguments Raise {A} e.

Definition is_ok {A} (r : result A) : bool :=
  match r with Ok _ => true | Raise _ => false end.

Definition raises {A} (r : result A) : Prop := ∃ e, r = Raise e.

(** A computation over a mutable world [W] that returns an [A] or raises. *)
Definition Prog (W A : Type) : Type := W → result A * W.

Definition ret {W A} (a : A) : Prog W A := λ w, (Ok a, w).
Definition raise {W A} (e : exn) : Prog W A := λ w, (Raise e, w).
Definition bind {W A B} (m : Prog W A) (k : A → Prog W B) : Prog W B :=
  λ w, match m w with
       | (Ok a, w') => k a w'
       | (Raise e, w') => (Raise e, w')
       end.
(** A collaborator call that cannot raise. *)
Definition call {W A} (f : W → A * W) : Prog W A :=
  λ w, let '(a, w') := f w in (Ok a, w').
Definition lift_result {W A} (r : result A) : Prog W A := λ w, (r, w).

Declare Scope prog_scope.
Delimit Scope prog_scope with prog.
Notation "x <- m ;; k" := (bind m (λ x, k))
  (at level 100, m at next level, right associativity) : prog_scope.
Notation "m ;;; k" := (bind m (λ _, k))
  (at level 100, right associativity) : prog_scope.

(** ** Python runtime pieces used by the three files *)

(** [x in l] and [l.remove(x)] compare with [y is x or y == x]. *)
Definition py_in {A} (eqb : A → A → bool) (x : A) (l : list A) : bool :=
  existsb (λ y, eqb y x) l.

Fixpoint py_remove {A} (eqb : A → A → bool) (x : A) (l : list A) : option (list A) :=
  match l with
  | [] => None
  | y :: l' => if eqb y x then Some l' else cons y <$> py_remove eqb x l'
  end.

(** [l1 == l2] on lists: same length and element-wise equal. *)
Fixpoint py_list_eq {A} (eqb : A → A → bool) (l1 l2 : list A) : bool :=
  match l1, l2 with
  | [], [] => true
  | x :: l1', y :: l2' => eqb x y && py_list_eq eqb l1' l2'
  | _, _ => false
  end.

(** [a == b] where either side may be [None]. *)
Definition py_option_eq {A} (eqb : A → A → bool) (a b : option A) : bool :=
  match a, b with
  | None, None => true
  | Some x, Some y => eqb x y
  | _, _ => false
  end.

(** Truthiness of a string: the empty string is falsy. *)
Definition str_truthy (s : string) : bool := negb (String.eqb s "").

(** ** Collaborator interfaces *)

(** [game/Item.py]: items are objects; [Item] is the type of references to
    them, [decide (i = j)] is [i is j]. *)
Class ItemAPI := {
  Item : Type;
  Item_eq_dec :: EqDecision Item;
  Item__eq__ : Item → Item → bool;
  Item_hasAllTags : Item → list string → bool;
  Item_getName : Item → string;
}.

(** [game/Map.py]: a zone exposes a [name]. *)
Class ZoneAPI := {
  Zone : Type;
  Zone__eq__ : Zone → Zone → bool;
  Zone_name : Zone → string;
}.

(** The library calls of [Character.py]: [hash] of the key tuple, the [re]
    match of the image url, [str.lower], [str.capitalize], [str.isupper] on
    the first character and [inflect]'s [plural]. *)
Class TextAPI := {
  py_hash : string * option string * string * string * string * string * string * bool → Z;
  match_url : string → bool;
  str_lower : string → string;
  str_capitalize : string → string;
  first_isupper : string → bool;
  inflect_plural : string → string;
}.

(** References to character objects and to list objects. *)
Abbreviation CharRef := nat (only parsing).
Abbreviation ListRef := nat (only parsing).

(** ** game/Character.py *)

Module Character.
Section Character.
Context `{ItemAPI} `{ZoneAPI} `{TextAPI}.

Record Character : Type := mkCharacter {
    name : string;
    imgSrc : option string;
    subj : string;
    obj : string;
    plur1 : string;
    plur2 : string;
    flex : string;
    plural : bool;
    items : list Item;
    tags : list string;
    location : option Zone;
    alliance : ListRef;
    alive : bool;
    age : Z;
    roundsSurvived : Z;
  }.

  (** The argument [o] of [__eq__] is any object. *)
Inductive object : Type :=
  | obj_Character (c : Character)
  | obj_other.

Definition item_eqb (i j : Item) : bool := bool_decide (i = j) || Item__eq__ i j.

Definition __hash__ (self : Character) : Z :=
    py_hash (name self, imgSrc self,
             subj self, obj self, plur1 self, plur2 self, flex self, plural self).

Definition __eq__ (self : Character) (o : object) : bool :=
    match o with
    | obj_other => false
    | obj_Character o =>
        forallb id [
          String.eqb (name self) (name o);
          py_option_eq String.eqb (imgSrc self) (imgSrc o);
          String.eqb (subj self) (subj o); String.eqb (obj self) (obj o);
          String.eqb (plur1 self) (plur1 o); String.eqb (plur2 self) (plur2 o);
          String.eqb (flex self) (flex o); Bool.eqb (plural self) (plural o);
          py_list_eq item_eqb (items self) (items o);
          py_list_eq String.eqb (tags self) (tags o);
          py_option_eq Zone__eq__ (location self) (location o);
          Bool.eqb (alive self) (alive o)
        ]
    end.

Definition getName (self : Character) : string := name self.
Definition getPicture (self : Character) : option string := imgSrc self.

Definition string (self : Character) (tag : option String.string) : String.string :=
    match tag with
    | Some tag =>
        if str_truthy tag then
          let lcTag := str_lower tag in
          let toRet :=
            if String.eqb lcTag "they" then subj self
            else if String.eqb lcTag "them" then obj self
            else if String.eqb lcTag "their" then plur1 self
            else if String.eqb lcTag "theirs" then plur2 self
            else if String.eqb lcTag "themself" then flex self
            else if String.eqb lcTag "they're" then
              subj self +:+ (if plural self then "'re" else "'s")
            else if String.eqb lcTag "weren't" then
              (if plural self then lcTag else "wasn't")
            else if String.eqb lcTag "aren't" then
              (if plural self then lcTag else "isn't")
            else if plural self then tag else inflect_plural tag in
          if first_isupper tag then str_capitalize toRet else toRet
        else name self
    | None => name self
    end.

Definition hasTag (self : Character) (tag : String.string) : bool :=
    py_in String.eqb tag (tags self).
Definition addTag (self : Character) (tag : String.string) : Character :=
    if hasTag self tag then self
    else mkCharacter (name self) (imgSrc self) (subj self) (obj self) (plur1 self)
           (plur2 self) (flex self) (plural self) (items self) (tags self ++ [tag])
           (location self) (alliance self) (alive self) (age self) (roundsSurvived self).
Definition isAlive (self : Character) : bool := alive self.

Definition getItemByTags (self : Character) (tags : list String.string) : option Item :=
    List.find (λ item, Item_hasAllTags item tags) (items self).
Definition getItemByName (self : Character) (itemName : String.string) : option Item :=
    List.find (λ item, String.eqb (Item_getName item) itemName) (items self).

Definition getLocation (self : Character) : option Zone := location self.
Definition isIn (self : Character) (loc : String.string) : result bool :=
    match location self with
    | Some z => Ok (String.eqb (Zone_name z) loc)
    | None => Raise (AttributeError "'NoneType' object has no attribute 'name'")
    end.
Definition isNearby (self other : Character) : bool :=
    py_option_eq Zone__eq__ (getLocation self) (getLocation other).
Definition move (self : Character) (newLocation : Zone) : Character :=
    mkCharacter (name self) (imgSrc self) (subj self) (obj self) (plur1 self)
      (plur2 self) (flex self) (plural self) (items self) (tags self)
      (Some newLocation) (alliance self) (alive self) (age self) (roundsSurvived self).

Definition set_alliance (self : Character) (l : ListRef) : Character :=
    mkCharacter (name self) (imgSrc self) (subj self) (obj self) (plur1 self)
      (plur2 self) (flex self) (plural self) (items self) (tags self)
      (location self) l (alive self) (age self) (roundsSurvived self).

#[export] Instance Character_inhabited : Inhabited Character :=
  populate (mkCharacter "" None "" "" "" "" "" false [] [] None 0 true 1 0).

(** *** The store: character objects and the list objects they share *)

Record Heap : Type := mkHeap {
  chars : gmap nat Character;
  lists : gmap nat (list nat);
}.

Definition deref (h : Heap) (c : CharRef) : Character := chars h !!! c.
Definition list_at (h : Heap) (l : ListRef) : list CharRef := lists h !!! l.

Definition store_char (c : CharRef) (v : Character) (h : Heap) : Heap :=
  mkHeap (<[c := v]> (chars h)) (lists h).
Definition store_list (l : ListRef) (v : list CharRef) (h : Heap) : Heap :=
  mkHeap (chars h) (<[l := v]> (lists h)).

(** A list display [[]] allocates a new list object. *)
Definition new_list (h : Heap) : ListRef * Heap :=
  let l := fresh (dom (lists h)) in (l, store_list l [] h).

(** [Character(name, imgSrc, pronouns)]. *)
Definition __init__ (name imgSrc : String.string)
    (pronouns : String.string * String.string * String.string * String.string * String.string * bool)
    (h : Heap) : CharRef * Heap :=
  let '(subj, obj, plur1, plur2, flex, plural) := pronouns in
  let c := fresh (dom (chars h)) in
  let '(l, h) := new_list h in
  (c, store_char c (mkCharacter name (if match_url imgSrc then Some imgSrc else None)
                      subj obj plur1 plur2 flex plural [] [] None l true 1 0) h).

(** The fields [__hash__] reads. *)
Definition same_key (c1 c2 : Character) : Prop :=
  name c1 = name c2 ∧ imgSrc c1 = imgSrc c2 ∧
  subj c1 = subj c2 ∧ obj c1 = obj c2 ∧ plur1 c1 = plur1 c2 ∧
  plur2 c1 = plur2 c2 ∧ flex c1 = flex c2 ∧ plural c1 = plural c2.

(** The further fields [__eq__] reads. *)
Definition same_condition (c1 c2 : Character) : Prop :=
  items c1 = items c2 ∧ tags c1 = tags c2 ∧
  location c1 = location c2 ∧ alive c1 = alive c2.

(** How [in] and [list.remove] compare two character objects. *)
Definition char_eqb (h : Heap) (y x : CharRef) : bool :=
  bool_decide (y = x) || __eq__ (deref h y) (obj_Character (deref h x)).

Definition isAlone (h : Heap) (self : CharRef) : bool :=
  bool_decide (length (list_at h (alliance (deref h self))) = 0).

Definition getAlliance (h : Heap) (self : CharRef) : ListRef := alliance (deref h self).

Definition joinAlliance (self : CharRef) (alliance : ListRef) (h : Heap) : Heap :=
  let h := store_char self (set_alliance (deref h self) alliance) h in
  store_list alliance (list_at h alliance ++ [self]) h.

Definition leaveAlliance (self : CharRef) : Prog Heap unit := λ h,
  if isAlone h self then (Ok (), h)
  else
    let l := alliance (deref h self) in
    match py_remove (char_eqb h) self (list_at h l) with
    | None => (Raise (ValueError "list.remove(x): x not in list"), h)
    | Some rest =>
        let h := store_list l rest h in
        let '(l', h) := new_list h in
        (Ok (), store_char self (set_alliance (deref h self) l') h)
    end.

Definition isAllyOf (h : Heap) (self other : CharRef) : bool :=
  py_in (char_eqb h) other (list_at h (alliance (deref h self))).

(** *** The alliance invariant *)

(** Every alliance reference is to an allocated list, every member of a list
    is an allocated character. *)
Definition heap_wf (h : Heap) : Prop :=
  map_Forall (λ _ ch, alliance ch ∈ dom (lists h)) (chars h) ∧
  map_Forall (λ _ L, Forall (λ m, m ∈ dom (chars h)) L) (lists h).

(** A non-empty alliance collection is referenced by every one of its members
    and by no non-member. *)
Definition alliance_inv (h : Heap) : Prop :=
  map_Forall (λ l L, L ≠ [] →
    Forall (λ m, alliance (deref h m) = l) L ∧
    map_Forall (λ c ch, alliance ch = l → c ∈ L) (chars h)) (lists h).

(** No character is listed twice in a collection. *)
Definition alliance_nodup (h : Heap) : Prop :=
  map_Forall (λ _ L, NoDup L) (lists h).

(** Two different character objects never compare equal with [__eq__]. *)
Definition chars_distinct (h : Heap) : Prop :=
  map_Forall (λ c1 ch1,
    map_Forall (λ c2 ch2, __eq__ ch1 (obj_Character ch2) = true → c1 = c2) (chars h))
    (chars h).

#[export] Instance heap_wf_dec h : Decision (heap_wf h).
Proof. unfold heap_wf. apply _. Defined.
#[export] Instance alliance_inv_dec h : Decision (alliance_inv h).
Proof. unfold alliance_inv. apply _. Defined.
#[export] Instance alliance_nodup_dec h : Decision (alliance_nodup h).
Proof. unfold alliance_nodup. apply _. Defined.
#[export] Instance chars_distinct_dec h : Decision (chars_distinct h).
Proof. unfold chars_distinct. apply _. Defined.

(** The state of the store the alliance operations are meant to run in. *)
Definition alliances_ok (h : Heap) : Prop :=
  heap_wf h ∧ alliance_inv h ∧ alliance_nodup h ∧ chars_distinct h.

#[export] Instance alliances_ok_dec h : Decision (alliances_ok h).
Proof. unfold alliances_ok. apply _. Defined.

(** What the store looks like after the three writes of [leaveAlliance]. *)
Definition left_heap (h : Heap) (self : nat) (rest : list nat) : Heap :=
  let l := alliance (deref h self) in
  let h1 := store_list l rest h in
  let l' := fresh (dom (lists h1)) in
  let h2 := store_list l' [] h1 in
  store_char self (set_alliance (deref h2 self) l') h2.


(** *** The remaining accessors and mutators *)

Definition with_tags (self : Character) (new_tags : list String.string) : Character :=
  mkCharacter (name self) (imgSrc self) (subj self) (obj self) (plur1 self)
    (plur2 self) (flex self) (plural self) (items self) new_tags
    (location self) (alliance self) (alive self) (age self) (roundsSurvived self).

Definition with_items (self : Character) (new_items : list Item) : Character :=
  mkCharacter (name self) (imgSrc self) (subj self) (obj self) (plur1 self)
    (plur2 self) (flex self) (plural self) new_items (tags self)
    (location self) (alliance self) (alive self) (age self) (roundsSurvived self).

Definition with_life (self : Character) (new_alive : bool) (new_age new_rounds : Z) : Character :=
  mkCharacter (name self) (imgSrc self) (subj self) (obj self) (plur1 self)
    (plur2 self) (flex self) (plural self) (items self) (tags self)
    (location self) (alliance self) new_alive new_age new_rounds.

(** [self.tags.remove(tag)] *)
Definition removeTag (self : Character) (tag : String.string) : result Character :=
  match py_remove String.eqb tag (tags self) with
  | Some rest => Ok (with_tags self rest)
  | None => Raise (ValueError "list.remove(x): x not in list")
  end.

Definition kill (self : Character) : Character :=
  with_life self false (age self) (roundsSurvived self).
Definition revive (self : Character) : Character :=
  with_life self true (age self) (roundsSurvived self).
Definition incAge (self : Character) : Character :=
  with_life self (alive self) (age self + 1)
    (if isAlive self then roundsSurvived self + 1 else roundsSurvived self)%Z.
Definition getAge (self : Character) : Z := age self.
Definition getRoundsSurvived (self : Character) : Z := roundsSurvived self.

(** [self.items.remove(item)] *)
Definition takeItem (self : Character) (item : Item) : result Character :=
  match py_remove item_eqb item (items self) with
  | Some rest => Ok (with_items self rest)
  | None => Raise (ValueError "list.remove(x): x not in list")
  end.

Definition getLocationStr (self : Character) : String.string :=
  match location self with
  | None => "No location"
  | Some z => Zone_name z
  end.
Definition getAliveStr (self : Character) : String.string :=
  if alive self then "Alive" else "Dead".

(** The calls that change a character's liveness and counters. *)
Inductive LifeOp : Type := do_kill | do_revive | do_incAge.

Definition life_step (self : Character) (op : LifeOp) : Character :=
  match op with
  | do_kill => kill self
  | do_revive => revive self
  | do_incAge => incAge self
  end.

(** [reset], on the character object [self] of the store: the new [[]] for
    [alliance] is a new list object. *)
Definition reset (self : CharRef) (h : Heap) : Heap :=
  let c := deref h self in
  let '(l, h) := new_list h in
  store_char self
    (mkCharacter (name c) (imgSrc c) (subj c) (obj c) (plur1 c) (plur2 c) (flex c)
       (plural c) [] [] None l true 1 0) h.

Definition is_incAge (op : LifeOp) : bool :=
  match op with do_incAge => true | _ => false end.

End Character.
End Character.

(** ** The world the engine runs in *)

(** [game/State.py] and the random source.  A [State] is a reference to a
    state object; what it holds lives in the [World], together with the
    character store.  [randbelow n] is the random source's draw below [n]. *)
Class WorldAPI `{ItemAPI} `{ZoneAPI} `{TextAPI} := {
  World : Type;
  State : Type;
  world_heap : World → Character.Heap;
  randbelow : Z → World → Z * World;
  State_getChar : State → option string → Prog World CharRef;
  State_setItem : State → string → Item → World → World;
  State_getTriggersFor : State → CharRef → World → Z;
  State_getTotalTriggers : State → World → Z;
  State_getReplacedText : State → string → World → string;
  State_getResultStrs : State → World → list (CharRef * string);
}.

(** [random.randrange(start, stop)], [random.randint(a, b)] and
    [random.choice(seq)]. *)
Definition randrange `{WorldAPI} (start stop : Z) : Prog World Z :=
  let width := (stop - start)%Z in
  if (0 <? width)%Z then
    (r <- call (randbelow width) ;; ret (start + r)%Z)%prog
  else raise (ValueError "empty range for randrange()").

Definition randint `{WorldAPI} (a b : Z) : Prog World Z := randrange a (b + 1)%Z.

Definition choice `{WorldAPI} {A} (seq : list A) : Prog World A :=
  match seq with
  | [] => raise (IndexError "Cannot choose from an empty sequence")
  | _ =>
      (i <- call (randbelow (Z.of_nat (length seq))) ;;
       match seq !! Z.to_nat i with
       | Some x => ret x
       | None => raise (IndexError "list index out of range")
       end)%prog
  end.

(** [game/Valids.py]: the identifier registry and its validation functions. *)
Class ValidsAPI `{ItemAPI} := {
  Valids : Type;
  Valids_addCharShort : string → Prog Valids unit;
  validateCharShort : string → Prog Valids unit;
  validateIsInt : string → result unit;
  py_int : string → result Z;
  addItemShortToValids : string → Prog Valids unit;
  addTagNameToValids : string → Prog Valids unit;
  validateLoadedItemTag : string → Prog Valids unit;
  validateLoadedZoneName : string → Prog Valids unit;
  Valids_getLoadedItemsWithTags : list string → Prog Valids (list Item);
  Valids_getLoadedItemWithName : string → Prog Valids (list Item);
}.

(** ** game/Check.py *)

Module Check.
Section Check.
Context `{WorldAPI} `{!ValidsAPI}.

Inductive Check : Type :=
| NearbyCheck (state : string) (targetShort : option string)
| AliveCheck (aState : string)
| AloneCheck (state : string)
| RelationCheck (relationship targetShort : string)
| TagCheck (tag : string)
| ItemCheck (rType itemShort : string) (itemTags : list string)
| CreateCheck (rType itemShort : string) (itemTags : list string) (items : list Item)
| LocationCheck (locName : string)
| LimitCheck (cType : string) (count : Z).

(** The classes, as [type(check)] and [ALLCHECKCLASSES] name them. *)
Inductive CheckClass : Type :=
| cNearbyCheck | cAliveCheck | cAloneCheck | cRelationCheck | cTagCheck
| cItemCheck | cCreateCheck | cLocationCheck | cLimitCheck.

#[export] Instance CheckClass_eq_dec : EqDecision CheckClass.
Proof. solve_decision. Defined.

Definition type (c : Check) : CheckClass :=
  match c with
  | NearbyCheck _ _ => cNearbyCheck
  | AliveCheck _ => cAliveCheck
  | AloneCheck _ => cAloneCheck
  | RelationCheck _ _ => cRelationCheck
  | TagCheck _ => cTagCheck
  | ItemCheck _ _ _ => cItemCheck
  | CreateCheck _ _ _ _ => cCreateCheck
  | LocationCheck _ => cLocationCheck
  | LimitCheck _ _ => cLimitCheck
  end.

Definition NEARBY : string := "nearby".
Definition ANYDISTANCE : string := "anydistance".
Definition ALIVE : string := "alive".
Definition DEAD : string := "dead".
Definition ALONE : string := "alone".
Definition ALLIED : string := "allied".
Definition ALLY : string := "ally".
Definition ENEMY : string := "enemy".
Definition ItemCheck_BY_TAGS : string := "item".
Definition ItemCheck_BY_NAME : string := "itemeq".
Definition CreateCheck_BY_TAGS : string := "create".
Definition CreateCheck_BY_NAME : string := "createeq".
Definition TOTAL : string := "total".
Definition PERCHAR : string := "perchar".

Definition matches (cls : CheckClass) : list string :=
  match cls with
  | cNearbyCheck => [NEARBY; ANYDISTANCE]
  | cAliveCheck => [ALIVE; DEAD]
  | cAloneCheck => [ALONE; ALLIED]
  | cRelationCheck => [ALLY; ENEMY]
  | cTagCheck => ["tag"]
  | cItemCheck => [ItemCheck_BY_TAGS; ItemCheck_BY_NAME]
  | cCreateCheck => [CreateCheck_BY_TAGS; CreateCheck_BY_NAME]
  | cLocationCheck => ["in"]
  | cLimitCheck => ["limit"]
  end.

Definition ALLCHECKCLASSES : list CheckClass :=
  [cNearbyCheck; cAliveCheck; cAloneCheck; cRelationCheck; cTagCheck;
   cItemCheck; cCreateCheck; cLocationCheck; cLimitCheck].

Definition unpack_error {A} : Prog Valids A :=
  raise (ValueError "wrong number of values to unpack").

(** [for tag in tags: validateLoadedItemTag(tag, valids)] *)
Fixpoint validate_item_tags (tags : list string) : Prog Valids unit :=
  match tags with
  | [] => ret ()
  | tag :: tags => (validateLoadedItemTag tag ;;; validate_item_tags tags)%prog
  end.

(** The constructors: [cls(valids, *args)]. *)
Definition __init__ (cls : CheckClass) (args : list string) : Prog Valids Check :=
  (match cls with
   | cNearbyCheck =>
       match args with
       | [a0; a1] =>
           if String.eqb a0 NEARBY then
             validateCharShort a1 ;;; ret (NearbyCheck a0 (Some a1))
           else unpack_error
       | [a0] => ret (NearbyCheck a0 None)
       | _ => unpack_error
       end
   | cAliveCheck =>
       match args with [aState] => ret (AliveCheck aState) | _ => unpack_error end
   | cAloneCheck =>
       match args with [state] => ret (AloneCheck state) | _ => unpack_error end
   | cRelationCheck =>
       match args with
       | [relationship; targetShort] =>
           validateCharShort targetShort ;;; ret (RelationCheck relationship targetShort)
       | _ => unpack_error
       end
   | cTagCheck =>
       match args with
       | [_; tag] => addTagNameToValids tag ;;; ret (TagCheck tag)
       | _ => unpack_error
       end
   | cItemCheck =>
       match args with
       | rType :: itemShort :: itemTags =>
           addItemShortToValids itemShort ;;;
           (if String.eqb rType ItemCheck_BY_TAGS then validate_item_tags itemTags
            else ret ()) ;;;
           ret (ItemCheck rType itemShort itemTags)
       | _ => unpack_error
       end
   | cCreateCheck =>
       match args with
       | rType :: itemShort :: itemTags =>
           addItemShortToValids itemShort ;;;
           (if String.eqb rType CreateCheck_BY_TAGS then validate_item_tags itemTags
            else ret ()) ;;;
           items <- (if String.eqb rType CreateCheck_BY_TAGS
                     then Valids_getLoadedItemsWithTags itemTags
                     else match itemTags with
                          | itemName :: _ => Valids_getLoadedItemWithName itemName
                          | [] => raise (IndexError "list index out of range")
                          end) ;;
           ret (CreateCheck rType itemShort itemTags items)
       | _ => unpack_error
       end
   | cLocationCheck =>
       match args with
       | [_; locName] => validateLoadedZoneName locName ;;; ret (LocationCheck locName)
       | _ => unpack_error
       end
   | cLimitCheck =>
       match args with
       | [_; cType; count] =>
           lift_result (validateIsInt count) ;;;
           n <- lift_result (py_int count) ;;
           ret (LimitCheck cType n)
       | _ => unpack_error
       end
   end)%prog.

(** [check.check(char, state)] *)
Definition check (c : Check) (char : CharRef) (state : State) : Prog World bool :=
  (match c with
   | NearbyCheck st targetShort =>
       if String.eqb st NEARBY then
         target <- State_getChar state targetShort ;;
         λ w, let h := world_heap w in
              (Ok (Character.isNearby (Character.deref h char) (Character.deref h target)), w)
       else ret true
   | AliveCheck aState =>
       λ w, let alive := Character.isAlive (Character.deref (world_heap w) char) in
            (Ok (if String.eqb aState ALIVE then alive else negb alive), w)
   | AloneCheck st =>
       λ w, let alone := Character.isAlone (world_heap w) char in
            (Ok (if String.eqb st ALONE && alone then true
                 else if String.eqb st ALLIED && negb alone then true
                 else false), w)
   | RelationCheck relationship targetShort =>
       target <- State_getChar state (Some targetShort) ;;
       λ w, let ally := Character.isAllyOf (world_heap w) char target in
            (Ok (if String.eqb relationship ALLY && ally then true
                 else if String.eqb relationship ENEMY && negb ally then true
                 else false), w)
   | TagCheck tag =>
       λ w, (Ok (Character.hasTag (Character.deref (world_heap w) char) tag), w)
   | ItemCheck rType itemShort itemTags =>
       item <- (if String.eqb rType ItemCheck_BY_TAGS then
                  λ w, (Ok (Character.getItemByTags
                              (Character.deref (world_heap w) char) itemTags), w)
                else
                  match itemTags with
                  | itemName :: _ =>
                      λ w, (Ok (Character.getItemByName
                                  (Character.deref (world_heap w) char) itemName), w)
                  | [] => raise (IndexError "list index out of range")
                  end) ;;
       match item with
       | None => ret false
       | Some item => λ w, (Ok true, State_setItem state itemShort item w)
       end
   | CreateCheck _ itemShort _ items =>
       item <- choice items ;;
       λ w, (Ok true, State_setItem state itemShort item w)
   | LocationCheck locName =>
       λ w, (Character.isIn (Character.deref (world_heap w) char) locName, w)
   | LimitCheck cType count =>
       if String.eqb cType PERCHAR then
         λ w, (Ok (bool_decide (State_getTriggersFor state char w ≤ count)%Z), w)
       else
         λ w, (Ok (bool_decide (State_getTotalTriggers state w ≤ count)%Z), w)
   end)%prog.

(** *** CheckSuite *)

Record CheckSuite : Type := mkCheckSuite {
  charShort : string;
  argsLists : list (list string);
  checks : list Check;
}.

(** [CheckSuite(charShort, argsLists)] *)
Definition CheckSuite__init__ (charShort : string) (argsLists : list (list string)) : CheckSuite :=
  mkCheckSuite charShort argsLists [].

Definition getCharShort (self : CheckSuite) : string := charShort self.

(** Modelled from the spec: [Suite.load] of [game/Valids.py], which is not
    among the sources.  Each argument-token list is instantiated into exactly
    one condition: the loader selects the class whose discriminator set
    [matches] contains the list's first token, invokes its constructor with
    the full token list and the registry, and appends the condition to the
    list it is given; an unknown discriminator fails the load. *)
Fixpoint Suite_load (classes : list CheckClass) (argsLists : list (list string))
    (loaded : list Check) : Prog Valids (list Check) :=
  match argsLists with
  | [] => ret loaded
  | args :: rest =>
      match args with
      | [] => raise (EventPartException "empty argument list")
      | token :: _ =>
          match List.find (λ cls, py_in String.eqb token (matches cls)) classes with
          | None => raise (EventPartException token)
          | Some cls =>
              (c <- __init__ cls args ;;
               Suite_load classes rest (loaded ++ [c]))%prog
          end
      end
  end.

Definition load (self : CheckSuite) : Prog Valids CheckSuite :=
  (Valids_addCharShort (getCharShort self) ;;;
   loaded <- Suite_load ALLCHECKCLASSES (argsLists self) (checks self) ;;
   if negb (existsb (λ check, bool_decide (type check = cAliveCheck)) loaded) then
     c <- __init__ cAliveCheck [ALIVE] ;;
     ret (mkCheckSuite (charShort self) (argsLists self) (c :: loaded))
   else ret (mkCheckSuite (charShort self) (argsLists self) loaded))%prog.

Definition addNearbyCheckIfNeeded (self : CheckSuite) : Prog Valids CheckSuite :=
  (if negb (existsb (λ check, bool_decide (type check = cAliveCheck)) (checks self)) then
     c <- __init__ cNearbyCheck [NEARBY] ;;
     ret (mkCheckSuite (charShort self) (argsLists self) (c :: checks self))
   else ret self)%prog.

(** The loop of [checkAll], over the checks that remain. *)
Fixpoint checkAll_loop (checks : list Check) (char : CharRef) (state : State)
    (allEffectTexts : list bool) : Prog World (list bool) :=
  match checks with
  | [] => ret allEffectTexts
  | ep :: checks =>
      (res <- check ep char state ;;
       checkAll_loop checks char state (allEffectTexts ++ [res]))%prog
  end.

Definition checkAll (self : CheckSuite) (char : CharRef) (state : State) : Prog World (list bool) :=
  checkAll_loop (checks self) char state [].

(** Whether an authored argument list names a Liveness condition. *)
Definition authored_liveness (args : list string) : bool :=
  match args with
  | token :: _ => py_in String.eqb token (matches cAliveCheck)
  | [] => false
  end.

(** [type(check) == AliveCheck], the test of both implicit-condition methods. *)
Definition is_AliveCheck (check : Check) : bool := bool_decide (type check = cAliveCheck).
Definition is_NearbyCheck (check : Check) : bool := bool_decide (type check = cNearbyCheck).

(** The class the loader selects for a discriminator token. *)
Definition class_of (token : string) : option CheckClass :=
  List.find (λ cls, py_in String.eqb token (matches cls)) ALLCHECKCLASSES.

(** The condition [c] is what the loader makes of the argument list [args]:
    an instance of the class its first token selects. *)
Definition instantiates (args : list string) (c : Check) : Prop :=
  ∃ token rest, args = token :: rest ∧ class_of token = Some (type c).

(** [evaluated char state cs w results w']: calling [check] on every
    condition of [cs] in order, each in the world the one before it left,
    gives the results [results] and ends in the world [w']. *)
Inductive evaluated (char : CharRef) (state : State)
  : list Check → World → list bool → World → Prop :=
| evaluated_nil w : evaluated char state [] w [] w
| evaluated_cons c cs w b w1 bs w2 :
    check c char state w = (Ok b, w1) →
    evaluated char state cs w1 bs w2 →
    evaluated char state (c :: cs) w (b :: bs) w2.

End Check.
End Check.

(** ** game/Game.py *)

(** [game/Event.py]: the calls [Game] makes on an event.  [prepare] and
    [trigger] run the event's own conditions and effects on the world. *)
Class EventAPI `{WorldAPI} := {
  Event : Type;
  Event_getName : Event → string;
  Event_getChance : Event → Z;
  Event_text : Event → string;
  Event_prepare : Event → CharRef → list CharRef → option State → World → bool * World;
  Event_trigger : Event → World → (State * list Event) * World;
}.

Module Game.
Section Game.
Context `{EventAPI}.

Record Game : Type := mkGame {
  tributes : list CharRef;
  items : list Item;
  events : list Event;
}.

(** One narrative entry: the rendered text and the per-character result strings. *)
Definition TextResult : Type := string * list (CharRef * string).

(** The three accumulators of the first loop of [chooseFromEvents]. *)
Record Selection : Type := mkSelection {
  possibleEvents : list Event;
  totalChance : Z;
  defaultEvent : option Event;
}.

Definition tribute_string (w : World) (tribute : CharRef) : string :=
  Character.string (Character.deref (world_heap w) tribute) None.

Definition getTributeByName (self : Game) (name : string) (w : World) : option CharRef :=
  List.find (λ tribute, String.eqb (tribute_string w tribute) name) (tributes self).

(** [for event in events: if event.prepare(char, self.tributes, state): ...] *)
Fixpoint prepare_loop (self : Game) (char : CharRef) (state : option State)
    (events : list Event) (acc : Selection) : Prog World Selection :=
  match events with
  | [] => ret acc
  | event :: events =>
      (prepared <- call (Event_prepare event char (tributes self) state) ;;
       if prepared then
         if (Event_getChance event =? 0)%Z then
           prepare_loop self char state events
             (mkSelection (possibleEvents acc) (totalChance acc) (Some event))
         else
           prepare_loop self char state events
             (mkSelection (possibleEvents acc ++ [event])
                          (totalChance acc + Event_getChance event)%Z
                          (defaultEvent acc))
       else prepare_loop self char state events acc)%prog
  end.

(** [for event in possibleEvents: if choice >= count and choice < count + chance ...] *)
Fixpoint pick_loop (choice : Z) (possibleEvents : list Event) (count : Z) : option Event :=
  match possibleEvents with
  | [] => None
  | event :: possibleEvents =>
      if (count <=? choice)%Z && (choice <? count + Event_getChance event)%Z
      then Some event
      else pick_loop choice possibleEvents (count + Event_getChance event)%Z
  end.

(** [if not events: events = self.events] *)
Definition pool_of (self : Game) (events : option (list Event)) : list Event :=
  match events with
  | Some (event :: rest) => event :: rest
  | _ => Game.events self
  end.

Definition chooseFromEvents (self : Game) (char : CharRef)
    (events : option (list Event)) (state : option State) : Prog World Event :=
  (sel <- prepare_loop self char state (pool_of self events) (mkSelection [] 0 None) ;;
   match possibleEvents sel with
   | [] =>
       match defaultEvent sel with
       | Some event => ret event
       | None => raise (Exception "No events matched when choosing from events")
       end
   | _ =>
       choice <- randint 0 (totalChance sel - 1) ;;
       match pick_loop choice (possibleEvents sel) 0 with
       | Some event => ret event
       | None =>
           raise (Exception ("Invalid choice when choosing from events ("
                             +:+ pretty choice +:+ " out of "
                             +:+ pretty (totalChance sel) +:+ ")"))
       end
   end)%prog.

(** [trigger] calls itself once per sub-event; [depth] is the interpreter's
    remaining recursion depth, and running out of it is a [RecursionError]. *)
Fixpoint trigger (depth : nat) (self : Game) (char : CharRef) (event : Event)
    : Prog World (list TextResult) :=
  match depth with
  | O => raise RecursionError
  | S depth =>
      (r <- call (Event_trigger event) ;;
       let '(state, subEvents) := r in
       textResults <- (λ w, (Ok [(State_getReplacedText state (Event_text event) w,
                                  State_getResultStrs state w)], w)) ;;
       match subEvents with
       | [] => ret textResults
       | _ =>
           sub <- chooseFromEvents self char (Some subEvents) (Some state) ;;
           more <- trigger depth self char sub ;;
           ret (textResults ++ more)
       end)%prog
  end.

Definition triggerByName (depth : nat) (self : Game) (charName eventName : string)
    : Prog World (list TextResult) := λ w,
  match List.find (λ tribute, String.eqb (tribute_string w tribute) charName) (tributes self) with
  | None => (Ok [("unable to find character named " +:+ charName, [])], w)
  | Some char =>
      match List.find (λ e, String.eqb (Event_getName e) eventName) (events self) with
      | None => (Ok [("unable to find event named " +:+ eventName, [])], w)
      | Some event =>
          (prepared <- call (Event_prepare event char (tributes self) None) ;;
           if prepared then trigger depth self char event
           else ret [("Trigger failed", [])])%prog w
      end
  end.

(** [for tribute in self.tributes: ...] of [round]. *)
Fixpoint round_loop (depth : nat) (self : Game) (tributes : list CharRef)
    (allresults : list (CharRef * list TextResult))
    : Prog World (list (CharRef * list TextResult)) :=
  match tributes with
  | [] => ret allresults
  | tribute :: tributes =>
      (alive <- (λ w, (Ok (Character.isAlive (Character.deref (world_heap w) tribute)), w)) ;;
       if negb alive then round_loop depth self tributes allresults
       else
         event <- chooseFromEvents self tribute None None ;;
         results <- trigger depth self tribute event ;;
         round_loop depth self tributes (allresults ++ [(tribute, results)]))%prog
  end.

Definition round (depth : nat) (self : Game) : Prog World (list (CharRef * list TextResult)) :=
  round_loop depth self (tributes self) [].

(** *** What the loops of [chooseFromEvents] compute *)

(** Every [prepare] call of the first loop, in order, with its answer. *)
Fixpoint prepare_all (self : Game) (char : CharRef) (state : option State)
    (events : list Event) (w : World) : list (Event * bool) * World :=
  match events with
  | [] => ([], w)
  | event :: events =>
      let '(prepared, w) := Event_prepare event char (tributes self) state w in
      let '(answers, w) := prepare_all self char state events w in
      ((event, prepared) :: answers, w)
  end.

(** The prepared events of nonzero chance, and the last prepared event of
    chance zero. *)
Definition weighted (answers : list (Event * bool)) : list Event :=
  fst <$> List.filter (λ a, snd a && negb (Event_getChance (fst a) =? 0)%Z) answers.
Definition fallback (answers : list (Event * bool)) : option Event :=
  last (fst <$> List.filter (λ a, snd a && (Event_getChance (fst a) =? 0)%Z) answers).

Definition sum_chance (events : list Event) : Z :=
  foldr (λ event acc, (Event_getChance event + acc)%Z) 0%Z events.

(** [x] is the first element of [l] that satisfies [f]; no element does. *)
Definition first_match {A} (f : A → bool) (l : list A) (x : A) : Prop :=
  ∃ pre post, l = pre ++ x :: post ∧ Forall (λ y, f y = false) pre ∧ f x = true.
Definition no_match {A} (f : A → bool) (l : list A) : Prop :=
  Forall (λ y, f y = false) l.

(** The draw falls in the half-open interval of [event], which follows the
    events [pre] in the candidate list. *)
Definition in_interval (draw : Z) (pre : list Event) (event : Event) : Prop :=
  (sum_chance pre ≤ draw < sum_chance pre + Event_getChance event)%Z.

(** *** Trigger chains *)

(** One step of a chain: the event triggered, the state and the sub-events
    its [trigger] returned, and the world right after that call. *)
Record Step : Type := mkStep {
  step_event : Event;
  step_state : State;
  step_subEvents : list Event;
  step_world : World;
}.

Definition render (s : Step) : TextResult :=
  (State_getReplacedText (step_state s) (Event_text (step_event s)) (step_world s),
   State_getResultStrs (step_state s) (step_world s)).

(** [chain self char event w steps w']: triggering [event] in world [w]
    unfolds into the steps [steps], each next event being the one
    [chooseFromEvents] picks among the previous step's sub-events with the
    previous step's state, and ends in world [w'] with an event that has no
    sub-events. *)
Inductive chain (self : Game) (char : CharRef) : Event → World → list Step → World → Prop :=
| chain_leaf event w state w1 :
    Event_trigger event w = ((state, []), w1) →
    chain self char event w [mkStep event state [] w1] w1
| chain_step event w state subEvents w1 sub w2 steps w3 :
    Event_trigger event w = ((state, subEvents), w1) →
    subEvents ≠ [] →
    chooseFromEvents self char (Some subEvents) (Some state) w1 = (Ok sub, w2) →
    chain self char sub w2 steps w3 →
    chain self char event w (mkStep event state subEvents w1 :: steps) w3.

(** Each step after the first was picked from the sub-events of the step
    before it, with that step's state. *)
Fixpoint linked (self : Game) (char : CharRef) (steps : list Step) : Prop :=
  match steps with
  | s1 :: ((s2 :: _) as rest) =>
      step_event s2 ∈ step_subEvents s1 ∧
      (∃ w2, chooseFromEvents self char (Some (step_subEvents s1)) (Some (step_state s1))
               (step_world s1) = (Ok (step_event s2), w2)) ∧
      linked self char rest
  | _ => True
  end.

(** [turns depth self ts w entries w']: the tributes [ts] take their turns in
    order from world [w].  A tribute that is dead when its turn comes is
    passed over, nothing being called for it; for a living one an event is
    chosen from the library and triggered, and the tribute with the texts is
    the next entry. *)
Inductive turns (depth : nat) (self : Game)
  : list CharRef → World → list (CharRef * list TextResult) → World → Prop :=
| turns_nil w : turns depth self [] w [] w
| turns_dead t ts w entries w' :
    Character.isAlive (Character.deref (world_heap w) t) = false →
    turns depth self ts w entries w' →
    turns depth self (t :: ts) w entries w'
| turns_alive t ts w event w1 texts w2 entries w3 :
    Character.isAlive (Character.deref (world_heap w) t) = true →
    chooseFromEvents self t None None w = (Ok event, w1) →
    trigger depth self t event w1 = (Ok texts, w2) →
    turns depth self ts w2 entries w3 →
    turns depth self (t :: ts) w ((t, texts) :: entries) w3.

End Game.
End Game.

(** ** A small concrete world

    One instance of every interface, on which the definitions above run. *)

Module Sample.

Record item : Type := mkItem {
  item_id : nat;
  item_name : string;
  item_tags : list string;
}.

#[export] Instance item_eq_dec : EqDecision item.
Proof. solve_decision. Defined.

#[export] Instance item_api : ItemAPI := {|
  Item := item;
  Item__eq__ := λ i j, bool_decide (i = j);
  Item_hasAllTags := λ i tags, forallb (λ t, py_in String.eqb t (item_tags i)) tags;
  Item_getName := item_name;
|}.

#[export] Instance zone_api : ZoneAPI := {|
  Zone := string;
  Zone__eq__ := String.eqb;
  Zone_name := λ z, z;
|}.

#[export] Instance text_api : TextAPI := {|
  py_hash := λ '(name, imgSrc, subj, obj, plur1, plur2, flex, plural),
    Z.of_nat (String.length name + from_option String.length 0 imgSrc + String.length subj);
  match_url := λ url, String.prefix "http" url;
  str_lower := λ s, s;
  str_capitalize := λ s, s;
  first_isupper := λ _, false;
  inflect_plural := λ s, s +:+ "s";
|}.

(** The world: the character store, the draws the random source will make,
    and the one state object with its bindings and trigger log. *)
Record world : Type := mkWorld {
  heap : Character.Heap;
  tape : list Z;
  bound_chars : list (string * nat);
  bound_items : list (string * item);
  trigger_log : list nat;
}.

Definition lookup_char (short : option string) (w : world) : result nat * world :=
  match short with
  | Some s =>
      match List.find (λ b, String.eqb (fst b) s) (bound_chars w) with
      | Some b => (Ok (snd b), w)
      | None => (Raise (Exception "KeyError"), w)
      end
  | None => (Raise (Exception "KeyError"), w)
  end.

#[export] Instance world_api : WorldAPI := {|
  World := world;
  State := unit;
  world_heap := heap;
  randbelow := λ n w,
    match tape w with
    | z :: rest => ((z `mod` n)%Z,
                    mkWorld (heap w) rest (bound_chars w) (bound_items w) (trigger_log w))
    | [] => (0%Z, w)
    end;
  State_getChar := λ _ short, lookup_char short;
  State_setItem := λ _ short it w,
    mkWorld (heap w) (tape w) (bound_chars w) ((short, it) :: bound_items w) (trigger_log w);
  State_getTriggersFor := λ _ c w,
    Z.of_nat (length (List.filter (Nat.eqb c) (trigger_log w)));
  State_getTotalTriggers := λ _ w, Z.of_nat (length (trigger_log w));
  State_getReplacedText := λ _ template _, template;
  State_getResultStrs := λ _ _, [];
|}.

(** Base-10 integer literals: an optional minus sign and one or more digits. *)
Definition digit_of (a : Ascii.ascii) : option Z :=
  let n := Ascii.nat_of_ascii a in
  if (48 <=? n)%nat && (n <=? 57)%nat then Some (Z.of_nat (n - 48)) else None.

Fixpoint digits_value (s : string) (acc : Z) : option Z :=
  match s with
  | EmptyString => Some acc
  | String a rest =>
      match digit_of a with
      | Some d => digits_value rest (10 * acc + d)%Z
      | None => None
      end
  end.

Definition parse_int (s : string) : option Z :=
  match s with
  | EmptyString => None
  | String a rest =>
      if (Ascii.nat_of_ascii a =? 45)%nat then
        match rest with
        | EmptyString => None
        | _ => Z.opp <$> digits_value rest 0
        end
      else digits_value s 0
  end.

#[export] Instance valids_api : ValidsAPI := {|
  Valids := list string;
  Valids_addCharShort := λ s v, (Ok (), s :: v);
  validateCharShort := λ s v,
    if py_in String.eqb s v then (Ok (), v) else (Raise (EventPartException s), v);
  validateIsInt := λ s,
    match parse_int s with
    | Some _ => Ok ()
    | None => Raise (EventPartException s)
    end;
  py_int := λ s,
    match parse_int s with
    | Some n => Ok n
    | None => Raise (ValueError "invalid literal for int() with base 10")
    end;
  addItemShortToValids := λ s v, (Ok (), v);
  addTagNameToValids := λ s v, (Ok (), v);
  validateLoadedItemTag := λ s v, (Ok (), v);
  validateLoadedZoneName := λ s v, (Ok (), v);
  Valids_getLoadedItemsWithTags := λ tags v, (Ok [], v);
  Valids_getLoadedItemWithName := λ name v, (Ok [], v);
|}.

(** Events whose [prepare] answer and sub-events are fixed. *)
#[warnings="-register-all"]
Inductive event : Type :=
| mkEvent (name : string) (chance : Z) (prepared : bool) (subs : list event).

Definition event_name (e : event) : string := let '(mkEvent n _ _ _) := e in n.
Definition event_chance (e : event) : Z := let '(mkEvent _ c _ _) := e in c.
Definition event_prepared (e : event) : bool := let '(mkEvent _ _ p _) := e in p.
Definition event_subs (e : event) : list event := let '(mkEvent _ _ _ s) := e in s.

#[export] Instance event_api : EventAPI := {|
  Event := event;
  Event_getName := event_name;
  Event_getChance := event_chance;
  Event_text := event_name;
  Event_prepare := λ e _ _ _ w, (event_prepared e, w);
  Event_trigger := λ e w, (((), event_subs e), w);
|}.

Definition empty_heap : Character.Heap := Character.mkHeap ∅ ∅.

Definition they : string * string * string * string * string * bool :=
  ("they", "them", "their", "theirs", "themself", true).

(** Three tributes, created in this order; an image url tells them apart. *)
Definition three_tributes : Character.Heap :=
  let '(_, h) := Character.__init__ "Ash" "http://a" they empty_heap in
  let '(_, h) := Character.__init__ "Birch" "http://b" they h in
  let '(_, h) := Character.__init__ "Cedar" "http://c" they h in
  h.

Definition world_of (h : Character.Heap) (draws : list Z) : world :=
  mkWorld h draws [] [] [].

(** A character value with the given image reference, alliance reference
    and counters; every other field is fixed. *)
Definition ash (img : option string) (allies : nat) (rounds : Z) : Character.Character :=
  Character.mkCharacter "Ash" img "they" "them" "their" "theirs" "themself" true
    [mkItem 0 "knife" ["sharp"]] ["running"] (Some "cornucopia") allies true rounds rounds.

(** Birch founds an alliance on its own collection and Ash joins it. *)
Definition ash_and_birch : Character.Heap :=
  let h := Character.joinAlliance 1 (Character.getAlliance three_tributes 1) three_tributes in
  Character.joinAlliance 0 (Character.getAlliance h 1) h.

(** Ash joins the empty collection that Birch, who is alone, still refers to. *)
Definition ash_on_birch_list : Character.Heap :=
  Character.joinAlliance 0 (Character.getAlliance three_tributes 1) three_tributes.

(** Ash, already allied with Birch, joins Cedar's collection. *)
Definition ash_joins_twice : Character.Heap :=
  Character.joinAlliance 0 (Character.getAlliance ash_and_birch 2) ash_and_birch.

(** Ash joins its own collection twice and is listed in it twice. *)
Definition ash_listed_twice : Character.Heap :=
  let h := Character.joinAlliance 0 (Character.getAlliance three_tributes 0) three_tributes in
  Character.joinAlliance 0 (Character.getAlliance h 0) h.

(** A world in which Ash carries a knife and a rope. *)
Definition knife : item := mkItem 0 "knife" ["sharp"; "metal"].
Definition rope : item := mkItem 1 "rope" ["long"].
Definition blade : item := mkItem 2 "blade" ["sharp"].

Definition armed_ash : Character.Character :=
  Character.mkCharacter "Ash" (Some "http://a") "they" "them" "their" "theirs" "themself" true
    [rope; knife; blade] [] None 0 true 1 0.

Definition armed_world : world :=
  world_of (Character.store_char 0 armed_ash three_tributes) [].

(** A world whose state has logged the given triggers. *)
Definition logged_world (log : list nat) : world :=
  mkWorld three_tributes [] [] [] log.

(** A suite authored without a Liveness or Proximity condition, and one
    authored with a Liveness condition. *)
Definition tag_suite : Check.CheckSuite :=
  Check.CheckSuite__init__ "a" [["tag"; "hungry"]; ["limit"; "total"; "3"]].
Definition dead_suite : Check.CheckSuite :=
  Check.CheckSuite__init__ "a" [["dead"]; ["tag"; "hungry"]].

(** Events and games over the three tributes. *)
Definition trap : event := mkEvent "trap" 5 false [].
Definition hunt : event := mkEvent "hunt" 1 true [].
Definition rest : event := mkEvent "rest" 0 true [].
Definition feast : event := mkEvent "feast" 3 true [].
Definition finale : event := mkEvent "finale" 1 true [].
Definition mid : event := mkEvent "mid" 1 true [finale].
Definition saga : event := mkEvent "saga" 2 true [mid].

Definition arena : Game.Game := Game.mkGame [0; 1; 2] [] [trap; hunt; rest; feast; saga].
Definition quiet_arena : Game.Game := Game.mkGame [0; 1; 2] [] [trap; rest].
Definition barren_arena : Game.Game := Game.mkGame [0; 1; 2] [] [trap].

(** The one state object of the sample world. *)
Definition the_state : @State item_api zone_api text_api world_api := ().

(** The registry before anything is loaded. *)
Definition no_valids : @Valids item_api valids_api := [].

(** What loading [tag_suite] into the empty registry gives. *)
Definition valids_a : @Valids item_api valids_api := ["a"].
Definition loaded_tag_suite : Check.CheckSuite :=
  Check.mkCheckSuite "a" [["tag"; "hungry"]; ["limit"; "total"; "3"]]
    [Check.AliveCheck "alive"; Check.TagCheck "hungry"; Check.LimitCheck "total" 3].

(** The world with no draws left, and the chain [saga] unfolds into in it. *)
Definition calm : world := world_of three_tributes [].
Definition saga_steps : list Game.Step :=
  [Game.mkStep saga the_state [mid] calm;
   Game.mkStep mid the_state [finale] calm;
   Game.mkStep finale the_state [] calm].

(** An event with a negative chance, which nothing forbids. *)
Definition curse : event := mkEvent "curse" (-2) true [].
Definition cursed_arena : Game.Game := Game.mkGame [0; 1; 2] [] [curse; rest].

End Sample.

(** * Properties *)

(** ** The program monad *)

Lemma bind_ok {W A B} (m : Prog W A) (k : A → Prog W B) w a w' :
  m w = (Ok a, w') → bind m k w = k a w'.
Proof. intros Hm. unfold bind. by rewrite Hm. Qed.

Lemma bind_raise {W A B} (m : Prog W A) (k : A → Prog W B) w e w' :
  m w = (Raise e, w') → bind m k w = (Raise e, w').
Proof. intros Hm. unfold bind. by rewrite Hm. Qed.

Lemma bind_inv_ok {W A B} (m : Prog W A) (k : A → Prog W B) w b w'' :
  bind m k w = (Ok b, w'') → ∃ a w', m w = (Ok a, w') ∧ k a w' = (Ok b, w'').
Proof.
  unfold bind. destruct (m w) as [[a|e] w'] eqn:Hm; [eauto | discriminate].
Qed.

(** ** Python comparisons *)

Lemma py_list_eq_refl {A} (eqb : A → A → bool) (l : list A) :
  (∀ x, x ∈ l → eqb x x = true) → py_list_eq eqb l l = true.
Proof.
  induction l as [|x l IH]; intros Hrefl; simpl; [done|].
  rewrite Hrefl by set_solver. apply IH. intros y Hy. apply Hrefl. set_solver.
Qed.

Lemma py_list_eq_eq (l1 l2 : list string) :
  py_list_eq String.eqb l1 l2 = true ↔ l1 = l2.
Proof.
  revert l2. induction l1 as [|x l1 IH]; intros [|y l2]; simpl; try done.
  rewrite andb_true_iff, String.eqb_eq, IH. split; [intros [-> ->]; done | by intros [= -> ->]].
Qed.

Lemma py_option_eq_eq (a b : option string) :
  py_option_eq String.eqb a b = true ↔ a = b.
Proof.
  destruct a, b; simpl; try done. rewrite String.eqb_eq. split; congruence.
Qed.

(** ** Character: equality and hashing *)

Section CharacterEq.
Context `{ItemAPI} `{ZoneAPI} `{TextAPI}.
Import Character.

Lemma item_eqb_refl (i : Item) : item_eqb i i = true.
Proof. unfold item_eqb. by rewrite bool_decide_eq_true_2. Qed.

Lemma eq_true_fields (c1 c2 : Character) :
  __eq__ c1 (obj_Character c2) = true →
  same_key c1 c2 ∧ tags c1 = tags c2 ∧ alive c1 = alive c2 ∧
  py_list_eq item_eqb (items c1) (items c2) = true ∧
  py_option_eq Zone__eq__ (location c1) (location c2) = true.
Proof.
  unfold __eq__, same_key. simpl. rewrite !andb_true_iff. unfold id.
  rewrite !String.eqb_eq, !py_option_eq_eq, !py_list_eq_eq, !Bool.eqb_true_iff.
  tauto.
Qed.

Lemma fields_eq_true (c1 c2 : Character) :
  same_key c1 c2 → tags c1 = tags c2 → alive c1 = alive c2 →
  py_list_eq item_eqb (items c1) (items c2) = true →
  py_option_eq Zone__eq__ (location c1) (location c2) = true →
  __eq__ c1 (obj_Character c2) = true.
Proof.
  intros (Hn & Hi & Hs & Ho & Hp1 & Hp2 & Hf & Hp) Ht Ha Hitems Hloc.
  unfold __eq__. simpl. unfold id.
  rewrite Hn, Hi, Hs, Ho, Hp1, Hp2, Hf, Hp, Ht, Ha, Hitems, Hloc.
  rewrite !String.eqb_refl, !Bool.eqb_reflx. simpl.
  rewrite (py_list_eq_refl String.eqb) by (intros; apply String.eqb_refl).
  assert (py_option_eq String.eqb (imgSrc c2) (imgSrc c2) = true) as ->
    by (by apply py_option_eq_eq).
  done.
Qed.

(** C9 (as amended): [__hash__] is a function of the name, the image
    reference and the pronoun profile alone; [__eq__] holds for two
    characters identical in those fields and in items, tags, location and
    liveness, whatever their alliances, ages and survival counts are; and
    [__eq__] holds exactly when the name, the image reference, the pronoun
    profile, the tags and the liveness are the same, the item lists compare
    equal element by element and the locations compare equal. *)
Theorem Character_eq_hash_fields (c1 c2 : Character) :
  (∀ z : Zone, Zone__eq__ z z = true) →
  (same_key c1 c2 → __hash__ c1 = __hash__ c2) ∧
  (same_key c1 c2 → same_condition c1 c2 → __eq__ c1 (obj_Character c2) = true) ∧
  (__eq__ c1 (obj_Character c2) = true ↔
   same_key c1 c2 ∧ tags c1 = tags c2 ∧ alive c1 = alive c2 ∧
   py_list_eq item_eqb (items c1) (items c2) = true ∧
   py_option_eq Zone__eq__ (location c1) (location c2) = true).
Proof.
  intros Hzone. split; [|split].
  - intros (Hn & Hi & Hs & Ho & Hp1 & Hp2 & Hf & Hp). unfold __hash__.
    by rewrite Hn, Hi, Hs, Ho, Hp1, Hp2, Hf, Hp.
  - intros Hkey (Hit & Ht & Hl & Ha). apply fields_eq_true; [done..| |].
    + rewrite Hit. apply py_list_eq_refl. intros. apply item_eqb_refl.
    + rewrite Hl. destruct (location c2); simpl; [apply Hzone | done].
  - split; [apply eq_true_fields|].
    intros (Hkey & Ht & Ha & Hitems & Hloc). by apply fields_eq_true.
Qed.

End CharacterEq.

Section CharacterEqSample.
Import Character Sample.

Lemma Character_eq_hash_fields_witness :
  __hash__ (ash None 1 1) = __hash__ (ash None 2 5) ∧
  __eq__ (ash None 1 1) (obj_Character (ash None 2 5)) = true.
Proof.
  destruct (Character_eq_hash_fields (ash None 1 1) (ash None 2 5)) as (Hh & He & _).
  - intros z. apply String.eqb_refl.
  - split; [apply Hh | apply He]; repeat split; reflexivity.
Defined.

(** C9 (as stated) fails: two characters with the same name, pronoun
    profile, items, tags, location and liveness, and even the same alliance,
    are unequal when their image references differ. *)
Lemma Character_eq_imgSrc_counterexample :
  let c1 := ash (Some "http://a") 1 1 in
  let c2 := ash None 1 1 in
  name c1 = name c2 ∧ subj c1 = subj c2 ∧ obj c1 = obj c2 ∧ plur1 c1 = plur1 c2 ∧
  plur2 c1 = plur2 c2 ∧ flex c1 = flex c2 ∧ plural c1 = plural c2 ∧
  items c1 = items c2 ∧ tags c1 = tags c2 ∧ location c1 = location c2 ∧
  alive c1 = alive c2 ∧ alliance c1 = alliance c2 ∧
  __eq__ c1 (obj_Character c2) = false.
Proof. repeat split; reflexivity. Qed.

End CharacterEqSample.

(** ** Character: alliances *)

Section Alliance.
Context `{ItemAPI} `{ZoneAPI} `{TextAPI}.
Import Character.

Lemma eq_set_alliance_l (c : Character) (l : nat) (o : object) :
  __eq__ (set_alliance c l) o = __eq__ c o.
Proof. by destruct o. Qed.

Lemma eq_set_alliance_r (c1 c : Character) (l : nat) :
  __eq__ c1 (obj_Character (set_alliance c l)) = __eq__ c1 (obj_Character c).
Proof. done. Qed.

Lemma deref_lookup (h : Heap) (c : nat) :
  c ∈ dom (chars h) → chars h !! c = Some (deref h c).
Proof.
  intros [ch Hch]%elem_of_dom. unfold deref.
  by rewrite (lookup_total_correct _ _ _ Hch).
Qed.

Lemma list_at_lookup (h : Heap) (l : nat) :
  l ∈ dom (lists h) → lists h !! l = Some (list_at h l).
Proof.
  intros [L HL]%elem_of_dom. unfold list_at.
  by rewrite (lookup_total_correct _ _ _ HL).
Qed.

Lemma deref_store_char (c c' : nat) (v : Character) (h : Heap) :
  deref (store_char c v h) c' = if decide (c = c') then v else deref h c'.
Proof. unfold deref, store_char. simpl. apply lookup_total_insert. Qed.

Lemma list_at_store_list (l l' : nat) (v : list nat) (h : Heap) :
  list_at (store_list l v h) l' = if decide (l = l') then v else list_at h l'.
Proof. unfold list_at, store_list. simpl. apply lookup_total_insert. Qed.

Lemma dom_chars_store_char (c : nat) (v : Character) (h : Heap) :
  dom (chars (store_char c v h)) = {[c]} ∪ dom (chars h).
Proof. unfold store_char. simpl. apply dom_insert_L. Qed.

Lemma dom_lists_store_list (l : nat) (v : list nat) (h : Heap) :
  dom (lists (store_list l v h)) = {[l]} ∪ dom (lists h).
Proof. unfold store_list. simpl. apply dom_insert_L. Qed.

(** The four parts of [alliances_ok], read through [deref] and [list_at]. *)
Lemma heap_wf_iff (h : Heap) :
  heap_wf h ↔
  (∀ c, c ∈ dom (chars h) → alliance (deref h c) ∈ dom (lists h)) ∧
  (∀ l m, l ∈ dom (lists h) → m ∈ list_at h l → m ∈ dom (chars h)).
Proof.
  unfold heap_wf, map_Forall. split.
  - intros [Hc Hl]. split.
    + intros c Hin. eapply Hc, deref_lookup, Hin.
    + intros l m Hin Hm. specialize (Hl l _ (list_at_lookup h l Hin)).
      rewrite Forall_forall in Hl. by apply Hl.
  - intros [Hc Hl]. split.
    + intros c ch Hch. specialize (Hc c (elem_of_dom_2 _ _ _ Hch)).
      unfold deref in Hc. by rewrite (lookup_total_correct _ _ _ Hch) in Hc.
    + intros l L HL. apply Forall_forall. intros m Hm.
      apply (Hl l m (elem_of_dom_2 _ _ _ HL)).
      unfold list_at. by rewrite (lookup_total_correct _ _ _ HL).
Qed.

Lemma alliance_inv_iff (h : Heap) :
  alliance_inv h ↔
  ∀ l, l ∈ dom (lists h) → list_at h l ≠ [] →
    (∀ m, m ∈ list_at h l → alliance (deref h m) = l) ∧
    (∀ c, c ∈ dom (chars h) → alliance (deref h c) = l → c ∈ list_at h l).
Proof.
  unfold alliance_inv, map_Forall. split.
  - intros Hinv l Hin Hne.
    destruct (Hinv l _ (list_at_lookup h l Hin) Hne) as [Hm Hr]. split.
    + intros m Hmem. rewrite Forall_forall in Hm. by apply Hm.
    + intros c Hc Hal. by apply (Hr c _ (deref_lookup h c Hc)).
  - intros Hinv l L HL Hne.
    assert (list_at h l = L) as HLat
      by (unfold list_at; by rewrite (lookup_total_correct _ _ _ HL)).
    destruct (Hinv l (elem_of_dom_2 _ _ _ HL)) as [Hm Hr]; [by rewrite HLat|].
    rewrite HLat in Hm, Hr. split.
    + apply Forall_forall. intros m Hmem. by apply Hm.
    + intros c ch Hch Hal. apply (Hr c (elem_of_dom_2 _ _ _ Hch)).
      unfold deref. by rewrite (lookup_total_correct _ _ _ Hch).
Qed.

Lemma alliance_nodup_iff (h : Heap) :
  alliance_nodup h ↔ ∀ l, l ∈ dom (lists h) → NoDup (list_at h l).
Proof.
  unfold alliance_nodup, map_Forall. split.
  - intros Hnd l Hin. apply (Hnd l _ (list_at_lookup h l Hin)).
  - intros Hnd l L HL. specialize (Hnd l (elem_of_dom_2 _ _ _ HL)).
    unfold list_at in Hnd. by rewrite (lookup_total_correct _ _ _ HL) in Hnd.
Qed.

Lemma chars_distinct_iff (h : Heap) :
  chars_distinct h ↔
  ∀ c1 c2, c1 ∈ dom (chars h) → c2 ∈ dom (chars h) →
    __eq__ (deref h c1) (obj_Character (deref h c2)) = true → c1 = c2.
Proof.
  unfold chars_distinct, map_Forall. split.
  - intros Hd c1 c2 H1' H2'.
    apply (Hd c1 _ (deref_lookup h c1 H1') c2 _ (deref_lookup h c2 H2')).
  - intros Hd c1 ch1 Hc1 c2 ch2 Hc2 Heq.
    apply (Hd c1 c2 (elem_of_dom_2 _ _ _ Hc1) (elem_of_dom_2 _ _ _ Hc2)).
    unfold deref.
    by rewrite (lookup_total_correct _ _ _ Hc1), (lookup_total_correct _ _ _ Hc2).
Qed.

Lemma char_eqb_refl (h : Heap) (c : nat) : char_eqb h c c = true.
Proof. unfold char_eqb. by rewrite bool_decide_eq_true_2. Qed.

Lemma char_eqb_distinct (h : Heap) (c1 c2 : nat) :
  chars_distinct h → c1 ∈ dom (chars h) → c2 ∈ dom (chars h) →
  char_eqb h c1 c2 = true → c1 = c2.
Proof.
  intros Hd H1' H2'. unfold char_eqb. rewrite orb_true_iff, bool_decide_eq_true.
  intros [?|Heq]; [done|]. by apply (proj1 (chars_distinct_iff h) Hd).
Qed.

Lemma py_in_elem {A} (eqb : A → A → bool) (x : A) (l : list A) :
  eqb x x = true → x ∈ l → py_in eqb x l = true.
Proof.
  intros Hrefl Hin. unfold py_in. apply existsb_exists. exists x.
  split; [by apply list_elem_of_In | done].
Qed.

Lemma py_remove_spec {A} (eqb : A → A → bool) (x : A) (l : list A) :
  NoDup l → x ∈ l → eqb x x = true →
  (∀ y, y ∈ l → eqb y x = true → y = x) →
  ∃ rest, py_remove eqb x l = Some rest ∧ NoDup rest ∧
          ∀ y, y ∈ rest ↔ y ∈ l ∧ y ≠ x.
Proof.
  intros Hnd Hin Hrefl. induction l as [|y l IH]; intros Hone.
  - by apply elem_of_nil in Hin.
  - apply NoDup_cons in Hnd as [Hy Hnd]. simpl.
    destruct (eqb y x) eqn:Hyx.
    + assert (y = x) as -> by (apply Hone; [left | done]).
      exists l. split; [done|]. split; [done|]. intros z. set_solver.
    + assert (y ≠ x) as Hne by (intros ->; congruence).
      destruct IH as (rest & Hrm & Hnd' & Hrest); [done | set_solver | |].
      { intros z Hz. apply Hone. by right. }
      rewrite Hrm. simpl. exists (y :: rest). split; [done|]. split.
      * apply NoDup_cons. split; [|done]. rewrite Hrest. tauto.
      * intros z. rewrite !elem_of_cons, Hrest. split; [|tauto].
        intros [->|[? ?]]; tauto.
Qed.

Lemma isAlone_iff (h : Heap) (c : nat) :
  isAlone h c = true ↔ list_at h (alliance (deref h c)) = [].
Proof.
  unfold isAlone. rewrite bool_decide_eq_true. apply length_zero_iff_nil.
Qed.

Lemma isAlone_false_iff (h : Heap) (c : nat) :
  isAlone h c = false ↔ list_at h (alliance (deref h c)) ≠ [].
Proof. rewrite <- isAlone_iff. by destruct (isAlone h c). Qed.

Lemma join_deref (h : Heap) (self al c : nat) :
  deref (joinAlliance self al h) c =
  if decide (self = c) then set_alliance (deref h self) al else deref h c.
Proof. unfold joinAlliance, deref. simpl. apply lookup_total_insert. Qed.

Lemma join_list_at (h : Heap) (self al l : nat) :
  list_at (joinAlliance self al h) l =
  if decide (al = l) then list_at h al ++ [self] else list_at h l.
Proof. unfold joinAlliance. by rewrite list_at_store_list. Qed.

Lemma join_dom_chars (h : Heap) (self al : nat) :
  self ∈ dom (chars h) → dom (chars (joinAlliance self al h)) = dom (chars h).
Proof.
  intros Hin. unfold joinAlliance. simpl. rewrite dom_insert_L. set_solver.
Qed.

Lemma join_dom_lists (h : Heap) (self al : nat) :
  al ∈ dom (lists h) → dom (lists (joinAlliance self al h)) = dom (lists h).
Proof.
  intros Hin. unfold joinAlliance. simpl. rewrite dom_insert_L. set_solver.
Qed.

(** An alone character is a member of no collection. *)
Lemma alone_not_member (h : Heap) (self l : nat) :
  alliance_inv h → isAlone h self = true →
  l ∈ dom (lists h) → self ∉ list_at h l.
Proof.
  intros Hinv Halone Hl Hmem. apply isAlone_iff in Halone.
  destruct (proj1 (alliance_inv_iff h) Hinv l Hl) as [Hm _].
  { intros Hnil. rewrite Hnil in Hmem. by apply elem_of_nil in Hmem. }
  rewrite (Hm self Hmem) in Halone. rewrite Halone in Hmem.
  by apply elem_of_nil in Hmem.
Qed.

Lemma joinAlliance_ok (h : Heap) (self al : nat) :
  alliances_ok h → self ∈ dom (chars h) → al ∈ dom (lists h) →
  isAlone h self = true →
  (list_at h al = [] →
   ∀ c, c ∈ dom (chars h) → c ≠ self → alliance (deref h c) ≠ al) →
  let h' := joinAlliance self al h in
  alliances_ok h' ∧
  list_at h' al = list_at h al ++ [self] ∧
  getAlliance h' self = al ∧
  isAlone h' self = false ∧
  ∀ m, m ∈ list_at h al →
    getAlliance h' m = al ∧ isAlone h' m = false ∧
    isAllyOf h' self m = true ∧ isAllyOf h' m self = true.
Proof.
  intros (Hwf & Hinv & Hnd & Hdist) Hself Hal Halone Hfresh. cbv zeta.
  pose proof (alone_not_member h self al Hinv Halone Hal) as Hnotin.
  apply heap_wf_iff in Hwf as [Hwfc Hwfl].
  pose proof (proj1 (alliance_inv_iff h) Hinv) as Hinv'.
  pose proof (proj1 (alliance_nodup_iff h) Hnd) as Hnd'.
  pose proof (proj1 (chars_distinct_iff h) Hdist) as Hdist'.
  assert (list_at (joinAlliance self al h) al = list_at h al ++ [self]) as Hlist.
  { rewrite join_list_at. by rewrite decide_True. }
  assert (alliance (deref (joinAlliance self al h) self) = al) as Hselfal.
  { rewrite join_deref. by rewrite decide_True. }
  assert (∀ m, m ∈ list_at h al → alliance (deref (joinAlliance self al h) m) = al) as Hmemal.
  { intros m Hm. rewrite join_deref.
    rewrite decide_False by (intros <-; done).
    apply Hinv'; [done | | done]. intros Hnil. rewrite Hnil in Hm.
    by apply elem_of_nil in Hm. }
  split; [|split; [done|split; [done|split]]].
  - (* the store is still in order *)
    split; [|split; [|split]].
    + apply heap_wf_iff.
      rewrite join_dom_chars, join_dom_lists by done. split.
      * intros c Hc. rewrite join_deref. case_decide; [done | by apply Hwfc].
      * intros l m Hl. rewrite join_list_at. case_decide as Heq.
        -- subst l. rewrite elem_of_app, list_elem_of_singleton.
           intros [Hm| ->]; [by apply (Hwfl al) | done].
        -- by apply Hwfl.
    + apply alliance_inv_iff.
      rewrite join_dom_chars, join_dom_lists by done.
      intros l Hl. rewrite join_list_at. case_decide as Heq.
      * subst l. intros _. split.
        -- intros m. rewrite elem_of_app, list_elem_of_singleton.
           intros [Hm| ->]; [by apply Hmemal | done].
        -- intros c Hc. rewrite join_deref, elem_of_app, list_elem_of_singleton.
           case_decide as Hcs; [by right|]. intros Hcal. left.
           destruct (decide (list_at h al = [])) as [Hnil|Hne].
           ++ exfalso. apply (Hfresh Hnil c Hc); [by intros -> | done].
           ++ by apply (Hinv' al Hal Hne).
      * intros Hne. destruct (Hinv' l Hl Hne) as [Hm Hr].
        assert (self ∉ list_at h l) as Hnl
          by by apply alone_not_member.
        split.
        -- intros m Hmem. rewrite join_deref.
           rewrite decide_False by (intros <-; done). by apply Hm.
        -- intros c Hc. rewrite join_deref. case_decide as Hcs; [done|].
           by apply Hr.
    + apply alliance_nodup_iff. rewrite join_dom_lists by done.
      intros l Hl. rewrite join_list_at. case_decide as Heq; [|by apply Hnd'].
      apply NoDup_app. split; [by apply Hnd'|]. split; [|apply NoDup_singleton].
      intros m Hm. rewrite list_elem_of_singleton. by intros ->.
    + apply chars_distinct_iff. rewrite join_dom_chars by done.
      intros c1 c2 Hc1 Hc2. rewrite !join_deref.
      repeat case_decide; subst; rewrite ?eq_set_alliance_l, ?eq_set_alliance_r;
        by apply Hdist'.
  - apply isAlone_false_iff. rewrite Hselfal, Hlist. by destruct (list_at h al).
  - intros m Hm. split; [by apply Hmemal|]. split; [|split].
    + apply isAlone_false_iff. rewrite (Hmemal m Hm), Hlist.
      by destruct (list_at h al).
    + unfold isAllyOf. rewrite Hselfal, Hlist.
      apply py_in_elem; [apply char_eqb_refl | set_solver].
    + unfold isAllyOf. rewrite (Hmemal m Hm), Hlist.
      apply py_in_elem; [apply char_eqb_refl | set_solver].
Qed.

Lemma leaveAlliance_alone (h : Heap) (self : nat) :
  isAlone h self = true → leaveAlliance self h = (Ok (), h).
Proof. intros Halone. unfold leaveAlliance. by rewrite Halone. Qed.

Lemma leaveAlliance_allied (h : Heap) (self : nat) (rest : list nat) :
  isAlone h self = false →
  py_remove (char_eqb h) self (list_at h (alliance (deref h self))) = Some rest →
  leaveAlliance self h = (Ok (), left_heap h self rest).
Proof. intros Halone Hrm. unfold leaveAlliance. by rewrite Halone, Hrm. Qed.

Lemma leaveAlliance_ok (h : Heap) (self : nat) :
  alliances_ok h → self ∈ dom (chars h) →
  ∃ h', leaveAlliance self h = (Ok (), h') ∧
    alliances_ok h' ∧
    isAlone h' self = true ∧
    (isAlone h self = true → h' = h) ∧
    (isAlone h self = false →
     getAlliance h' self ≠ getAlliance h self ∧
     self ∉ list_at h' (getAlliance h self) ∧
     (∀ m, m ∈ list_at h' (getAlliance h self) ↔
           m ∈ list_at h (getAlliance h self) ∧ m ≠ self) ∧
     (∀ m, m ∈ list_at h' (getAlliance h self) → getAlliance h' m = getAlliance h self)).
Proof.
  intros Hok Hself. destruct (isAlone h self) eqn:Halone.
  { exists h. rewrite leaveAlliance_alone by done.
    split; [done|]. split; [done|]. split; [done|]. split; [done|]. intros [=]. }
  destruct Hok as (Hwf & Hinv & Hnd & Hdist).
  apply heap_wf_iff in Hwf as [Hwfc Hwfl].
  pose proof (proj1 (alliance_inv_iff h) Hinv) as Hinv'.
  pose proof (proj1 (alliance_nodup_iff h) Hnd) as Hnd'.
  pose proof (proj1 (chars_distinct_iff h) Hdist) as Hdist'.
  unfold getAlliance. set (l := alliance (deref h self)).
  assert (l ∈ dom (lists h)) as Hl by by apply Hwfc.
  assert (list_at h l ≠ []) as Hne by by apply isAlone_false_iff.
  destruct (Hinv' l Hl Hne) as [Hmem Href].
  assert (self ∈ list_at h l) as Hin by by apply Href.
  destruct (py_remove_spec (char_eqb h) self (list_at h l)) as (rest & Hrm & Hndr & Hrest).
  { by apply Hnd'. } { done. } { apply char_eqb_refl. }
  { intros y Hy. apply char_eqb_distinct; [done | by apply (Hwfl l) | done]. }
  exists (left_heap h self rest). rewrite (leaveAlliance_allied h self rest) by done.
  split; [done|].
  set (l' := fresh (dom (lists (store_list l rest h)))).
  assert (l' ∉ dom (lists h)) as Hfresh.
  { intros Hl'. apply (is_fresh (dom (lists (store_list l rest h)))).
    fold l'. rewrite dom_lists_store_list. by apply elem_of_union_r. }
  assert (l' ≠ l) as Hll by (intros ->; done).
  assert (∀ c, deref (left_heap h self rest) c =
               if decide (self = c) then set_alliance (deref h self) l' else deref h c)
    as Hderef.
  { intros c. unfold left_heap, deref. simpl. apply lookup_total_insert. }
  assert (∀ k, list_at (left_heap h self rest) k =
               if decide (l' = k) then [] else if decide (l = k) then rest else list_at h k)
    as Hlist.
  { intros k. unfold left_heap, list_at, l'. simpl.
    rewrite lookup_total_insert. case_decide; [by rewrite decide_True|].
    rewrite decide_False by done. apply lookup_total_insert. }
  assert (dom (chars (left_heap h self rest)) = dom (chars h)) as Hdomc.
  { unfold left_heap. simpl. rewrite dom_insert_L. clear -Hself. set_solver. }
  assert (dom (lists (left_heap h self rest)) = {[l']} ∪ dom (lists h)) as Hdoml.
  { transitivity ({[l']} ∪ ({[l]} ∪ dom (lists h))).
    - unfold left_heap, l'. simpl. by rewrite !dom_insert_L.
    - clear -Hl. set_solver. }
  assert (∀ k, k ∈ {[l']} ∪ dom (lists h) → l' ≠ k → k ∈ dom (lists h)) as Hold.
  { intros k [Hk%elem_of_singleton|Hk]%elem_of_union Hne'; [congruence|done]. }
  assert (∀ c, c ∈ dom (chars h) → alliance (deref h c) ≠ l') as Hnol'.
  { intros c Hc Heq. apply Hfresh. rewrite <- Heq. by apply Hwfc. }
  split; [|split; [|split; [done|intros _; split; [|split; [|split]]]]].
  - split; [|split; [|split]].
    + apply heap_wf_iff. rewrite Hdomc, Hdoml. split.
      * intros c Hc. rewrite Hderef.
        case_decide; [apply elem_of_union_l; by apply elem_of_singleton|].
        apply elem_of_union_r. by apply Hwfc.
      * intros k m Hk. rewrite Hlist. repeat case_decide.
        -- by intros ?%elem_of_nil.
        -- intros Hm%Hrest. apply (Hwfl l); tauto.
        -- apply Hwfl. by apply Hold.
    + apply alliance_inv_iff. rewrite Hdomc, Hdoml.
      intros k Hk. rewrite Hlist. case_decide as Hk1; [done|].
      assert (k ∈ dom (lists h)) as Hk' by by apply Hold.
      case_decide as Hk2.
      * subst k. intros _. split.
        -- intros m [Hm Hms]%Hrest. rewrite Hderef.
           rewrite decide_False by done. by apply Hmem.
        -- intros c Hc. rewrite Hderef. case_decide as Hcs; [done|].
           intros Hcl. apply Hrest. split; [by apply Href | done].
      * intros Hkne. destruct (Hinv' k Hk' Hkne) as [Hm Hr]. split.
        -- intros m Hmk. rewrite Hderef. case_decide as Hms; [|by apply Hm].
           subst m. exfalso. apply Hk2. exact (Hm self Hmk).
        -- intros c Hc. rewrite Hderef. case_decide as Hcs; [done|]. by apply Hr.
    + apply alliance_nodup_iff. rewrite Hdoml. intros k Hk. rewrite Hlist.
      repeat case_decide; [apply NoDup_nil_2 | done | apply Hnd'; by apply Hold].
    + apply chars_distinct_iff. rewrite Hdomc. intros c1 c2 Hc1 Hc2.
      rewrite !Hderef.
      repeat case_decide; try subst c1; try subst c2;
        rewrite ?eq_set_alliance_l, ?eq_set_alliance_r; by apply Hdist'.
  - apply isAlone_iff. rewrite Hderef, decide_True by done. simpl.
    rewrite Hlist. by rewrite decide_True.
  - rewrite Hderef, decide_True by done. done.
  - rewrite Hlist, decide_False, decide_True by done. rewrite Hrest. tauto.
  - intros m. rewrite Hlist, decide_False, decide_True by done. apply Hrest.
  - intros m. rewrite Hlist, decide_False, decide_True by done.
    intros [Hm Hms]%Hrest. rewrite Hderef, decide_False by done. by apply Hmem.
Qed.

(** C8 (as amended): in a store where every non-empty alliance collection is
    referenced by exactly its members, lists nobody twice, and no two
    character objects compare equal, a character is alone exactly when its
    collection is empty; [joinAlliance] by a character that is alone, into a
    collection that is non-empty or that no other character refers to, keeps
    the store in that state, makes the joiner and every earlier member allied
    and allies of each other in both directions; and [leaveAlliance] returns,
    keeps the store in that state, leaves the leaver alone with a new empty
    collection that is not the group's, and removes the leaver, and only the
    leaver, from the group's collection, which the remaining members still
    share. *)
Theorem alliance_invariant_preserved (h : Heap) :
  alliances_ok h →
  (∀ c, isAlone h c = true ↔ list_at h (getAlliance h c) = []) ∧
  (∀ self al,
     self ∈ dom (chars h) → al ∈ dom (lists h) → isAlone h self = true →
     (list_at h al = [] →
      ∀ c, c ∈ dom (chars h) → c ≠ self → getAlliance h c ≠ al) →
     let h' := joinAlliance self al h in
     alliances_ok h' ∧
     list_at h' al = list_at h al ++ [self] ∧
     getAlliance h' self = al ∧
     isAlone h' self = false ∧
     ∀ m, m ∈ list_at h al →
       getAlliance h' m = al ∧ isAlone h' m = false ∧
       isAllyOf h' self m = true ∧ isAllyOf h' m self = true) ∧
  (∀ self,
     self ∈ dom (chars h) →
     ∃ h', leaveAlliance self h = (Ok (), h') ∧
       alliances_ok h' ∧
       isAlone h' self = true ∧
       (isAlone h self = true → h' = h) ∧
       (isAlone h self = false →
        getAlliance h' self ≠ getAlliance h self ∧
        self ∉ list_at h' (getAlliance h self) ∧
        (∀ m, m ∈ list_at h' (getAlliance h self) ↔
              m ∈ list_at h (getAlliance h self) ∧ m ≠ self) ∧
        (∀ m, m ∈ list_at h' (getAlliance h self) →
              getAlliance h' m = getAlliance h self))).
Proof.
  intros Hok. split; [|split].
  - intros c. apply isAlone_iff.
  - intros self al Hself Hal Halone Hfresh. by apply joinAlliance_ok.
  - intros self Hself. by apply leaveAlliance_ok.
Qed.

End Alliance.

Section AllianceSample.
Import Character Sample.

Lemma alliance_invariant_preserved_witness :
  alliances_ok ash_and_birch ∧
  alliances_ok (joinAlliance 2 1 ash_and_birch) ∧
  isAllyOf (joinAlliance 2 1 ash_and_birch) 2 0 = true ∧
  isAllyOf (joinAlliance 2 1 ash_and_birch) 0 2 = true ∧
  ∃ h', leaveAlliance 0 ash_and_birch = (Ok (), h') ∧ alliances_ok h' ∧
        isAlone h' 0 = true.
Proof.
  assert (alliances_ok ash_and_birch) as Hok
    by (apply (bool_decide_unpack _); vm_compute; exact I).
  destruct (alliance_invariant_preserved ash_and_birch Hok) as (_ & Hjoin & Hleave).
  split; [exact Hok|].
  destruct (Hjoin 2 1) as (Hok' & _ & _ & _ & Hall).
  - apply (bool_decide_unpack _). vm_compute. exact I.
  - apply (bool_decide_unpack _). vm_compute. exact I.
  - reflexivity.
  - intros Hnil. vm_compute in Hnil. discriminate Hnil.
  - destruct (Hall 0) as (_ & _ & H20 & H02).
    + apply (bool_decide_unpack _). vm_compute. exact I.
    + split; [exact Hok'|]. split; [exact H20|]. split; [exact H02|].
      destruct (Hleave 0) as (h' & Hrun & Hok'' & Halone & _).
      * apply (bool_decide_unpack _). vm_compute. exact I.
      * exists h'. split; [exact Hrun|]. split; [exact Hok''|exact Halone].
Defined.

(** C8 (as stated) fails.  The invariant of the claim holds before and not
    after: when Ash joins the empty collection Birch still refers to, Birch
    refers to a non-empty collection without being a member; when Ash joins a
    second collection, the first still lists Ash; when a character listed
    twice leaves, the collection it left still lists it. *)
Lemma joinAlliance_breaks_invariant_counterexample :
  (heap_wf three_tributes ∧ alliance_inv three_tributes ∧
   ¬ alliance_inv ash_on_birch_list ∧
   isAlone ash_on_birch_list 1 = false ∧ isAllyOf ash_on_birch_list 0 1 = false) ∧
  (heap_wf ash_and_birch ∧ alliance_inv ash_and_birch ∧
   ¬ alliance_inv ash_joins_twice ∧
   isAllyOf ash_joins_twice 1 0 = true ∧ isAllyOf ash_joins_twice 0 1 = false) ∧
  (heap_wf ash_listed_twice ∧ alliance_inv ash_listed_twice ∧
   ∃ h', leaveAlliance 0 ash_listed_twice = (Ok (), h') ∧
         ¬ alliance_inv h' ∧ 0 ∈ list_at h' (getAlliance ash_listed_twice 0)).
Proof.
  split; [|split].
  - split; [by apply (bool_decide_unpack _); vm_compute|].
    split; [by apply (bool_decide_unpack _); vm_compute|].
    split; [by apply (bool_decide_eq_false_1 _); vm_compute|].
    split; reflexivity.
  - split; [by apply (bool_decide_unpack _); vm_compute|].
    split; [by apply (bool_decide_unpack _); vm_compute|].
    split; [by apply (bool_decide_eq_false_1 _); vm_compute|].
    split; reflexivity.
  - split; [by apply (bool_decide_unpack _); vm_compute|].
    split; [by apply (bool_decide_unpack _); vm_compute|].
    eexists. split; [reflexivity|].
    split; [by apply (bool_decide_eq_false_1 _); vm_compute|].
    by apply (bool_decide_unpack _); vm_compute.
Qed.

End AllianceSample.

(** ** Checks *)

Section CheckFacts.
Context `{WorldAPI} `{!ValidsAPI}.
Import Check.

(** C6: a [LimitCheck] with ceiling [C] returns true exactly when the counter
    it reads, [getTriggersFor(char)] for [perchar] and [getTotalTriggers()]
    for [total], is at most [C], and changes nothing; with [total] and
    ceiling 3 it is true at 0, 1, 2 and 3 and false at 4. *)
Theorem LimitCheck_check_inclusive (C : Z) (char : nat) (state : State) (w : World) :
  (∃ b, check (LimitCheck PERCHAR C) char state w = (Ok b, w) ∧
        (b = true ↔ (State_getTriggersFor state char w ≤ C)%Z)) ∧
  (∃ b, check (LimitCheck TOTAL C) char state w = (Ok b, w) ∧
        (b = true ↔ (State_getTotalTriggers state w ≤ C)%Z)) ∧
  (State_getTotalTriggers state w ∈ [0; 1; 2; 3]%Z →
   check (LimitCheck TOTAL 3) char state w = (Ok true, w)) ∧
  (State_getTotalTriggers state w = 4%Z →
   check (LimitCheck TOTAL 3) char state w = (Ok false, w)).
Proof.
  split; [|split; [|split]].
  - eexists. split; [reflexivity|]. apply bool_decide_eq_true.
  - eexists. split; [reflexivity|]. apply bool_decide_eq_true.
  - intros Hin. simpl. rewrite bool_decide_eq_true_2; [done|].
    rewrite !elem_of_cons in Hin. destruct Hin as [->|[->|[->|[->|Hin]]]]; try lia.
    by apply elem_of_nil in Hin.
  - intros Hfour. simpl. rewrite Hfour. by rewrite bool_decide_eq_false_2 by lia.
Qed.

Lemma find_none_forall {A} (f : A → bool) (l : list A) :
  Forall (λ x, f x = false) l → List.find f l = None.
Proof. induction 1 as [|x l Hx _ IH]; simpl; [done|]. by rewrite Hx. Qed.

Lemma find_first {A} (f : A → bool) (pre post : list A) (x : A) :
  Forall (λ y, f y = false) pre → f x = true →
  List.find f (pre ++ x :: post) = Some x.
Proof.
  induction 1 as [|y pre Hy _ IH]; intros Hx; simpl; [by rewrite Hx|].
  rewrite Hy. by apply IH.
Qed.

(** C7: an [ItemCheck] searches the character's inventory, by all tags for
    [item] and by the exact name, its first operand, for [itemeq].  When no
    item matches it returns false and the world, the state in it included, is
    as before; when [it] is the first item that matches it returns true and
    the only change is [state.setItem(itemShort, it)].  Whatever the check
    is, a run that does not return true changes nothing. *)
Theorem ItemCheck_check_binds (rType itemShort : string) (itemTags : list string)
    (char : nat) (state : State) (w : World) (pred : Item → bool) :
  let inventory := Character.items (Character.deref (world_heap w) char) in
  (rType = ItemCheck_BY_TAGS ∧ pred = (λ item, Item_hasAllTags item itemTags)) ∨
  (rType = ItemCheck_BY_NAME ∧
   ∃ itemName rest, itemTags = itemName :: rest ∧
                    pred = (λ item, String.eqb (Item_getName item) itemName)) →
  (Forall (λ item, pred item = false) inventory →
   check (ItemCheck rType itemShort itemTags) char state w = (Ok false, w)) ∧
  (∀ pre it post,
     inventory = pre ++ it :: post →
     Forall (λ item, pred item = false) pre → pred it = true →
     check (ItemCheck rType itemShort itemTags) char state w =
       (Ok true, State_setItem state itemShort it w)) ∧
  (∀ r w', check (ItemCheck rType itemShort itemTags) char state w = (r, w') →
           r ≠ Ok true → w' = w).
Proof.
  intros inventory Hmode.
  assert (∀ found,
    (if String.eqb rType ItemCheck_BY_TAGS
     then Some (Character.getItemByTags (Character.deref (world_heap w) char) itemTags)
     else match itemTags with
          | itemName :: _ =>
              Some (Character.getItemByName (Character.deref (world_heap w) char) itemName)
          | [] => None
          end) = Some found →
    check (ItemCheck rType itemShort itemTags) char state w =
      match found with
      | Some it => (Ok true, State_setItem state itemShort it w)
      | None => (Ok false, w)
      end) as Hrun.
  { intros found. simpl. unfold bind.
    destruct (String.eqb rType ItemCheck_BY_TAGS).
    - intros [= <-]. by destruct (Character.getItemByTags _ _).
    - destruct itemTags as [|itemName rest]; [done|].
      intros [= <-]. by destruct (Character.getItemByName _ _). }
  assert ((if String.eqb rType ItemCheck_BY_TAGS
     then Some (Character.getItemByTags (Character.deref (world_heap w) char) itemTags)
     else match itemTags with
          | itemName :: _ =>
              Some (Character.getItemByName (Character.deref (world_heap w) char) itemName)
          | [] => None
          end) = Some (List.find pred inventory)) as Hfound.
  { destruct Hmode as [[-> ->]|(-> & itemName & rest & -> & ->)]; done. }
  split; [|split].
  - intros Hnone. rewrite (Hrun _ Hfound). by rewrite find_none_forall.
  - intros pre it post Hinv Hpre Hit. rewrite (Hrun _ Hfound).
    rewrite Hinv. by rewrite find_first.
  - intros r w'. rewrite (Hrun _ Hfound).
    destruct (List.find pred inventory); intros [= <- <-]; done.
Qed.

(** Whatever an [ItemCheck] is given, a run that does not return true, a
    raise included, leaves the world as it was. *)
Lemma ItemCheck_check_unmodified (rType itemShort : string) (itemTags : list string)
    (char : nat) (state : State) (w : World) (r : result bool) (w' : World) :
  check (ItemCheck rType itemShort itemTags) char state w = (r, w') →
  r ≠ Ok true → w' = w.
Proof.
  simpl. unfold bind. destruct (String.eqb rType ItemCheck_BY_TAGS).
  - destruct (Character.getItemByTags _ _); intros [= <- <-]; done.
  - destruct itemTags as [|itemName rest]; [by intros [= <- <-]|].
    destruct (Character.getItemByName _ _); intros [= <- <-]; done.
Qed.

Ltac inv_bind H :=
  repeat match type of H with
         | bind _ _ _ = (Ok _, _) =>
             let a := fresh "a" in
             let w := fresh "w" in
             let Hm := fresh "Hm" in
             apply bind_inv_ok in H as (a & w & Hm & H)
         end.

Lemma init_type (cls : CheckClass) (args : list string) (v v' : Valids) (c : Check) :
  __init__ cls args v = (Ok c, v') → type c = cls.
Proof.
  destruct cls; simpl;
    repeat (match goal with
            | |- context [match ?x with _ => _ end] =>
                is_var x; destruct x
            | |- context [if ?b then _ else _] => destruct b
            end; simpl);
    try (intros [=]; fail);
    intros Hrun; inv_bind Hrun; by injection Hrun as <- _.
Qed.

Lemma class_of_alive (token : string) :
  class_of token = Some cAliveCheck ↔ py_in String.eqb token (matches cAliveCheck) = true.
Proof.
  split.
  - intros Hfind. apply find_some in Hfind. tauto.
  - unfold py_in. cbn [matches existsb]. intros Hin.
    apply orb_true_iff in Hin as [Hin|Hin]; [apply String.eqb_eq in Hin as <-; done|].
    apply orb_true_iff in Hin as [Hin|Hin]; [apply String.eqb_eq in Hin as <-; done|].
    done.
Qed.

Lemma instantiates_liveness (args : list string) (c : Check) :
  instantiates args c → is_AliveCheck c = authored_liveness args.
Proof.
  intros (token & rest & -> & Hcls). unfold is_AliveCheck, authored_liveness.
  destruct (py_in String.eqb token (matches cAliveCheck)) eqn:Hin.
  - apply class_of_alive in Hin. rewrite Hin in Hcls.
    apply bool_decide_eq_true. congruence.
  - apply bool_decide_eq_false. intros Hty. rewrite Hty in Hcls.
    apply class_of_alive in Hcls. congruence.
Qed.

Lemma Suite_load_cons (classes : list CheckClass) (token : string) (rest : list string)
    (argsLists : list (list string)) (loaded : list Check) (v : Valids) :
  Suite_load classes ((token :: rest) :: argsLists) loaded v =
    match List.find (λ cls, py_in String.eqb token (matches cls)) classes with
    | None => (Raise (EventPartException token), v)
    | Some cls =>
        bind (__init__ cls (token :: rest))
             (λ c, Suite_load classes argsLists (loaded ++ [c])) v
    end.
Proof. cbn [Suite_load]. by destruct (List.find _ classes). Qed.

Lemma Suite_load_instantiates (argsLists : list (list string)) (loaded out : list Check)
    (v v' : Valids) :
  Suite_load ALLCHECKCLASSES argsLists loaded v = (Ok out, v') →
  ∃ new, out = loaded ++ new ∧ Forall2 instantiates argsLists new.
Proof.
  revert loaded v. induction argsLists as [|args argsLists IH]; intros loaded v.
  - intros [= <- <-]. exists []. split; [by rewrite app_nil_r | constructor].
  - destruct args as [|token rest]; [intros [=]|].
    rewrite Suite_load_cons. fold (class_of token).
    destruct (class_of token) as [cls|] eqn:Hcls; [|intros [=]].
    intros Hrun. inv_bind Hrun. apply init_type in Hm.
    destruct (IH _ _ Hrun) as (new & -> & Hnew).
    exists (a :: new). split; [by rewrite <- app_assoc|].
    constructor; [|done]. exists token, rest. split; [done|].
    by rewrite Hm.
Qed.

Lemma existsb_instantiates (argsLists : list (list string)) (new : list Check) :
  Forall2 instantiates argsLists new →
  existsb is_AliveCheck new = existsb authored_liveness argsLists.
Proof.
  induction 1 as [|args c argsLists new Hc _ IH]; simpl; [done|].
  by rewrite (instantiates_liveness args c Hc), IH.
Qed.

Lemma filter_no_AliveCheck (l : list Check) :
  existsb is_AliveCheck l = false → List.filter is_AliveCheck l = [].
Proof.
  induction l as [|c l IH]; simpl; [done|].
  rewrite orb_false_iff. intros [-> Hl]. by apply IH.
Qed.

Lemma checkAll_loop_extends (cs : list Check) (char : nat) (state : State)
    (acc results : list bool) (w w' : World) :
  checkAll_loop cs char state acc w = (Ok results, w') →
  ∃ more, results = acc ++ more.
Proof.
  revert acc w. induction cs as [|c cs IH]; intros acc w; simpl.
  - intros [= <- <-]. exists []. by rewrite app_nil_r.
  - intros Hrun. inv_bind Hrun. destruct (IH _ _ Hrun) as (more & ->).
    exists (a :: more). by rewrite <- app_assoc.
Qed.

(** C3: loading a suite whose authored argument lists name no Liveness
    condition ([alive] or [dead]) yields the loaded conditions, one per
    argument list, preceded by one [AliveCheck] with state [alive]; it is the
    only [AliveCheck] of the suite and the first condition [checkAll]
    evaluates, so the first result is the character's liveness.  When a
    Liveness condition was authored the suite holds the loaded conditions
    and nothing else. *)
Theorem CheckSuite_load_implicit_alive (self suite' : CheckSuite) (v v' : Valids) :
  checks self = [] →
  load self v = (Ok suite', v') →
  ∃ loaded,
    Forall2 instantiates (argsLists self) loaded ∧
    (existsb authored_liveness (argsLists self) = false →
     checks suite' = AliveCheck ALIVE :: loaded ∧
     checks suite' !! 0 = Some (AliveCheck ALIVE) ∧
     List.filter is_AliveCheck (checks suite') = [AliveCheck ALIVE] ∧
     ∀ char state w,
       checkAll suite' char state w =
         bind (check (AliveCheck ALIVE) char state)
              (λ res, checkAll_loop loaded char state [res]) w ∧
       ∀ results w', checkAll suite' char state w = (Ok results, w') →
         head results = Some (Character.isAlive (Character.deref (world_heap w) char))) ∧
    (existsb authored_liveness (argsLists self) = true →
     checks suite' = loaded).
Proof.
  intros Hfresh Hload. unfold load in Hload. inv_bind Hload. rewrite Hfresh in Hm0.
  destruct (Suite_load_instantiates _ _ _ _ _ Hm0) as (loaded & -> & Hinst).
  simpl in *. exists loaded. split; [done|].
  fold is_AliveCheck in Hload.
  rewrite (existsb_instantiates _ _ Hinst) in Hload.
  destruct (existsb authored_liveness (argsLists self)) eqn:Hauth; simpl in Hload.
  - split; [done|]. intros _. by injection Hload as <- _.
  - split; [|done]. intros _. inv_bind Hload.
    injection Hm1 as <- _. injection Hload as <- _. simpl.
    split; [done|]. split; [done|]. split.
    { fold is_AliveCheck. rewrite filter_no_AliveCheck; [done|].
      by rewrite (existsb_instantiates _ _ Hinst). }
    intros char state world. split; [done|].
    intros results world'. unfold checkAll. simpl. intros Hrun.
    apply bind_inv_ok in Hrun as (res & world1 & Hres & Hrun).
    injection Hres as <- <-.
    destruct (checkAll_loop_extends _ _ _ _ _ _ _ Hrun) as (more & ->). done.
Qed.

(** C4, on the code: [addNearbyCheckIfNeeded] tests for an [AliveCheck], not
    for a [NearbyCheck].  It inserts a [NearbyCheck] exactly when the suite
    holds no [AliveCheck], whether or not a [NearbyCheck] is present; and a
    suite that was loaded always holds an [AliveCheck], so on a loaded suite
    it never inserts anything. *)
Theorem addNearbyCheckIfNeeded_tests_AliveCheck (self suite' : CheckSuite)
    (v v' v0 : Valids) :
  load self v = (Ok suite', v') →
  existsb is_AliveCheck (checks suite') = true ∧
  addNearbyCheckIfNeeded suite' v0 = (Ok suite', v0) ∧
  (∀ other : CheckSuite,
     existsb is_AliveCheck (checks other) = false →
     addNearbyCheckIfNeeded other v0 =
       (Ok (mkCheckSuite (charShort other) (argsLists other)
              (NearbyCheck NEARBY None :: checks other)), v0)).
Proof.
  intros Hload.
  assert (existsb is_AliveCheck (checks suite') = true) as Halive.
  { unfold load in Hload. inv_bind Hload. fold is_AliveCheck in Hload.
    destruct (existsb is_AliveCheck a0) eqn:Hex; simpl in Hload.
    - by injection Hload as <- _.
    - inv_bind Hload. injection Hm1 as <- _. by injection Hload as <- _. }
  split; [done|]. split.
  - unfold addNearbyCheckIfNeeded. fold is_AliveCheck. by rewrite Halive.
  - intros other Hnone. unfold addNearbyCheckIfNeeded. fold is_AliveCheck.
    by rewrite Hnone.
Qed.

End CheckFacts.

Section CheckSample.
Import Check Sample.

Lemma LimitCheck_check_inclusive_witness :
  check (LimitCheck TOTAL 3) 0 the_state (logged_world [0; 1; 0]) = (Ok true, logged_world [0; 1; 0]) ∧
  check (LimitCheck TOTAL 3) 0 the_state (logged_world [0; 1; 0; 2]) =
    (Ok false, logged_world [0; 1; 0; 2]).
Proof.
  split.
  - destruct (LimitCheck_check_inclusive 3 0 the_state (logged_world [0; 1; 0]))
      as (_ & _ & Hupto & _).
    apply Hupto. apply (bool_decide_unpack _). vm_compute. exact I.
  - destruct (LimitCheck_check_inclusive 3 0 the_state (logged_world [0; 1; 0; 2]))
      as (_ & _ & _ & Hfour).
    apply Hfour. reflexivity.
Defined.

Lemma ItemCheck_check_binds_witness :
  check (ItemCheck ItemCheck_BY_TAGS "x" ["sharp"]) 0 the_state armed_world =
    (Ok true, State_setItem the_state "x" knife armed_world) ∧
  check (ItemCheck ItemCheck_BY_NAME "x" ["bread"]) 0 the_state armed_world =
    (Ok false, armed_world).
Proof.
  split.
  - destruct (ItemCheck_check_binds ItemCheck_BY_TAGS "x" ["sharp"] 0 the_state armed_world
                (λ item, Item_hasAllTags item ["sharp"])) as (_ & Hfound & _).
    + left. split; reflexivity.
    + apply (Hfound [rope] knife [blade]).
      * reflexivity.
      * repeat constructor.
      * reflexivity.
  - destruct (ItemCheck_check_binds ItemCheck_BY_NAME "x" ["bread"] 0 the_state armed_world
                (λ item, String.eqb (Item_getName item) "bread")) as (Hnone & _ & _).
    + right. split; [reflexivity|]. exists "bread", []. split; reflexivity.
    + apply Hnone. repeat constructor.
Defined.

Lemma CheckSuite_load_implicit_alive_witness :
  load tag_suite no_valids = (Ok loaded_tag_suite, valids_a) ∧
  checks loaded_tag_suite !! 0 = Some (AliveCheck ALIVE) ∧
  List.filter is_AliveCheck (checks loaded_tag_suite) = [AliveCheck ALIVE].
Proof.
  destruct (CheckSuite_load_implicit_alive tag_suite loaded_tag_suite no_valids valids_a)
    as (loaded & Hinst & Hnone & _).
  - reflexivity.
  - reflexivity.
  - destruct Hnone as (_ & Hfirst & Honly & _); [reflexivity|].
    split; [reflexivity|]. split; [exact Hfirst | exact Honly].
Defined.

Lemma addNearbyCheckIfNeeded_tests_AliveCheck_witness :
  load tag_suite no_valids = (Ok loaded_tag_suite, valids_a) ∧
  existsb is_NearbyCheck (checks loaded_tag_suite) = false ∧
  addNearbyCheckIfNeeded loaded_tag_suite valids_a = (Ok loaded_tag_suite, valids_a).
Proof.
  destruct (addNearbyCheckIfNeeded_tests_AliveCheck tag_suite loaded_tag_suite
              no_valids valids_a valids_a) as (_ & Hsame & _).
  - reflexivity.
  - split; [reflexivity|]. split; [reflexivity | exact Hsame].
Defined.

End CheckSample.

(** ** Event resolution *)

Section GameFacts.
Context `{EventAPI}.
Import Game.

Lemma prepare_all_events (self : Game) (char : nat) (state : option State)
    (events : list Event) (w : World) :
  (prepare_all self char state events w).1.*1 = events.
Proof.
  revert w. induction events as [|event events IH]; intros w; simpl; [done|].
  destruct (Event_prepare event char (tributes self) state w) as [prepared w1].
  specialize (IH w1).
  destruct (prepare_all self char state events w1) as [answers w2]. simpl in *.
  by f_equal.
Qed.

Lemma weighted_cons (a : Event * bool) (answers : list (Event * bool)) :
  weighted (a :: answers) =
  if a.2 && negb (Event_getChance a.1 =? 0)%Z then a.1 :: weighted answers
  else weighted answers.
Proof. unfold weighted. simpl. by destruct (_ && _). Qed.

Lemma fallback_cons (a : Event * bool) (answers : list (Event * bool)) :
  fallback (a :: answers) =
  if a.2 && (Event_getChance a.1 =? 0)%Z
  then Some (default a.1 (fallback answers))
  else fallback answers.
Proof.
  unfold fallback. cbn [List.filter]. destruct (a.2 && _); [|done].
  rewrite fmap_cons, last_cons. by destruct (last _).
Qed.

Lemma sum_chance_app (l1 l2 : list Event) :
  sum_chance (l1 ++ l2) = (sum_chance l1 + sum_chance l2)%Z.
Proof.
  unfold sum_chance. induction l1 as [|e l1 IH]; simpl; [done|].
  rewrite IH. lia.
Qed.

(** The first loop, from any accumulator. *)
Lemma prepare_loop_spec (self : Game) (char : nat) (state : option State)
    (events : list Event) (acc : Selection) (w : World) :
  let answers := (prepare_all self char state events w).1 in
  prepare_loop self char state events acc w =
    (Ok (mkSelection (possibleEvents acc ++ weighted answers)
           (totalChance acc + sum_chance (weighted answers))
           (match fallback answers with
            | Some event => Some event
            | None => defaultEvent acc
            end)),
     (prepare_all self char state events w).2).
Proof.
  revert acc w. induction events as [|event events IH]; intros acc w; simpl.
  - unfold ret. rewrite app_nil_r, Z.add_0_r. by destruct acc.
  - unfold bind, call.
    destruct (Event_prepare event char (tributes self) state w) as [prepared w1].
    specialize (IH (if prepared
                    then if (Event_getChance event =? 0)%Z
                         then mkSelection (possibleEvents acc) (totalChance acc) (Some event)
                         else mkSelection (possibleEvents acc ++ [event])
                                (totalChance acc + Event_getChance event) (defaultEvent acc)
                    else acc) w1).
    destruct (prepare_all self char state events w1) as [answers w2]. simpl in *.
    rewrite weighted_cons, fallback_cons. simpl.
    destruct prepared; simpl; [|done].
    destruct (Event_getChance event =? 0)%Z; simpl; rewrite IH; simpl.
    + by destruct (fallback answers).
    + rewrite <- app_assoc. simpl. do 3 f_equal. lia.
Qed.

Lemma weighted_spec (answers : list (Event * bool)) (event : Event) :
  event ∈ weighted answers ↔ (event, true) ∈ answers ∧ Event_getChance event ≠ 0%Z.
Proof.
  induction answers as [|[e b] answers IH].
  - unfold weighted. simpl. set_solver.
  - rewrite weighted_cons. simpl. destruct b; simpl.
    + destruct (Event_getChance e =? 0)%Z eqn:Hz; simpl.
      * apply Z.eqb_eq in Hz. rewrite IH, elem_of_cons. split; [tauto|].
        intros [[[= -> ]|?] ?]; tauto.
      * apply Z.eqb_neq in Hz. rewrite !elem_of_cons, IH. split.
        -- intros [->|[? ?]]; [split; [by left|done] | split; [by right|done]].
        -- intros [[[= ->]|?] ?]; [by left | by right].
    + rewrite IH, elem_of_cons. split; [tauto|]. intros [[[=]|?] ?]. tauto.
Qed.

Lemma fallback_spec (answers : list (Event * bool)) (event : Event) :
  fallback answers = Some event →
  (event, true) ∈ answers ∧ Event_getChance event = 0%Z.
Proof.
  revert event. induction answers as [|[e b] answers IH]; intros event.
  - done.
  - rewrite fallback_cons. simpl. destruct b; simpl.
    + destruct (Event_getChance e =? 0)%Z eqn:Hz; simpl.
      * apply Z.eqb_eq in Hz. destruct (fallback answers) as [d|]; simpl.
        -- intros [= <-]. destruct (IH d eq_refl). split; [by right|done].
        -- intros [= <-]. split; [by left|done].
      * intros Hf. destruct (IH _ Hf). split; [by right|done].
    + intros Hf. destruct (IH _ Hf). split; [by right|done].
Qed.

Lemma fallback_none (answers : list (Event * bool)) :
  fallback answers = None ↔
  ∀ event, (event, true) ∈ answers → Event_getChance event ≠ 0%Z.
Proof.
  induction answers as [|[e b] answers IH].
  - split; [|done]. intros _ event Hin. by apply elem_of_nil in Hin.
  - rewrite fallback_cons. simpl. destruct b; simpl.
    + destruct (Event_getChance e =? 0)%Z eqn:Hz; simpl.
      * apply Z.eqb_eq in Hz. split; [done|]. intros Hall.
        exfalso. apply (Hall e); [by left|done].
      * apply Z.eqb_neq in Hz. rewrite IH. split.
        -- intros Hall event [[= ->]|Hin]%elem_of_cons; [done|by apply Hall].
        -- intros Hall event Hin. apply Hall. by right.
    + rewrite IH. split.
      * intros Hall event [[=]|Hin]%elem_of_cons. by apply Hall.
      * intros Hall event Hin. apply Hall. by right.
Qed.

(** The second loop returns the first candidate whose interval holds the
    draw. *)
Lemma pick_loop_first (choice : Z) (candidates : list Event) (count : Z) (event : Event) :
  pick_loop choice candidates count = Some event →
  ∃ pre post, candidates = pre ++ event :: post ∧
    (count + sum_chance pre ≤ choice < count + sum_chance pre + Event_getChance event)%Z ∧
    ∀ pre' e' post', pre = pre' ++ e' :: post' →
      ¬ (count + sum_chance pre' ≤ choice < count + sum_chance pre' + Event_getChance e')%Z.
Proof.
  revert count. induction candidates as [|e candidates IH]; intros count; simpl; [done|].
  destruct ((count <=? choice)%Z && (choice <? count + Event_getChance e)%Z) eqn:Hin.
  - intros [= <-]. exists [], candidates. split; [done|].
    apply andb_true_iff in Hin as [?%Z.leb_le ?%Z.ltb_lt]. simpl.
    split; [lia|]. intros pre' e' post' Hnil. by destruct pre'.
  - intros Hpick. destruct (IH _ Hpick) as (pre & post & -> & Hint & Hfirst).
    exists (e :: pre), post. split; [done|]. simpl. split; [lia|].
    intros [|e0 pre'] e' post'; simpl.
    + intros [= <- _]. apply andb_false_iff in Hin.
      rewrite Z.leb_gt, Z.ltb_ge in Hin. lia.
    + intros [= <- ->]. specialize (Hfirst pre' e' post' eq_refl). lia.
Qed.

(** It finds one whenever the draw is below the total. *)
Lemma pick_loop_total (choice : Z) (candidates : list Event) (count : Z) :
  (count ≤ choice < count + sum_chance candidates)%Z →
  ∃ event, pick_loop choice candidates count = Some event.
Proof.
  revert count. induction candidates as [|e candidates IH]; intros count; simpl.
  - lia.
  - intros Hrange.
    destruct ((count <=? choice)%Z && (choice <? count + Event_getChance e)%Z) eqn:Hin;
      [by eexists|].
    apply IH. apply andb_false_iff in Hin. rewrite Z.leb_gt, Z.ltb_ge in Hin. lia.
Qed.

Lemma sum_chance_positive (candidates : list Event) :
  candidates ≠ [] →
  (∀ event, event ∈ candidates → 0 < Event_getChance event)%Z →
  (0 < sum_chance candidates)%Z.
Proof.
  intros Hne Hpos.
  assert (∀ l, (∀ event, event ∈ l → 0 < Event_getChance event)%Z → 0 ≤ sum_chance l)%Z
    as Hnn.
  { induction l as [|e l IH]; simpl; [lia|]. intros Hl.
    specialize (Hl e (list_elem_of_here _ _)) as He.
    assert (0 ≤ sum_chance l)%Z by (apply IH; intros; apply Hl; by right). lia. }
  destruct candidates as [|e l]; [done|]. simpl.
  specialize (Hpos e (list_elem_of_here _ _)) as He.
  assert (0 ≤ sum_chance l)%Z by (apply Hnn; intros; apply Hpos; by right). lia.
Qed.

Lemma randint_below (total : Z) (w : World) :
  (0 < total)%Z →
  randint 0 (total - 1) w = (Ok (randbelow total w).1, (randbelow total w).2).
Proof.
  intros Hpos. unfold randint, randrange.
  replace (total - 1 + 1 - 0)%Z with total by lia.
  rewrite (proj2 (Z.ltb_lt 0 total) Hpos). unfold bind, call, ret.
  by destruct (randbelow total w).
Qed.

Lemma chooseFromEvents_no_candidate (self : Game) (char : nat)
    (events : option (list Event)) (state : option State) (w : World) :
  let run := prepare_all self char state (pool_of self events) w in
  weighted run.1 = [] →
  chooseFromEvents self char events state w =
    match fallback run.1 with
    | Some event => (Ok event, run.2)
    | None => (Raise (Exception "No events matched when choosing from events"), run.2)
    end.
Proof.
  intros run Hnone. unfold chooseFromEvents, bind.
  rewrite prepare_loop_spec. fold run. simpl.
  destruct (weighted run.1); [|done]. by destruct (fallback run.1).
Qed.

Lemma chooseFromEvents_candidates (self : Game) (char : nat)
    (events : option (list Event)) (state : option State) (w : World) :
  let run := prepare_all self char state (pool_of self events) w in
  let total := sum_chance (weighted run.1) in
  let draw := randbelow total run.2 in
  weighted run.1 ≠ [] → (0 < total)%Z → (0 ≤ draw.1 < total)%Z →
  ∃ event, pick_loop draw.1 (weighted run.1) 0 = Some event ∧
           chooseFromEvents self char events state w = (Ok event, draw.2).
Proof.
  intros run total draw Hne Hpos Hdraw.
  destruct (pick_loop_total draw.1 (weighted run.1) 0) as [event Hpick]; [fold total; lia|].
  exists event. split; [done|].
  unfold chooseFromEvents, bind. rewrite prepare_loop_spec. fold run. simpl.
  destruct (weighted run.1) as [|e l] eqn:Hw; [done|].
  rewrite Z.add_0_l. fold total. rewrite (randint_below total run.2 Hpos).
  fold draw. by rewrite Hpick.
Qed.

Lemma weighted_positive (answers : list (Event * bool)) :
  (∀ event, event ∈ answers.*1 → 0 ≤ Event_getChance event)%Z →
  (∀ event, event ∈ weighted answers → 0 < Event_getChance event)%Z.
Proof.
  intros Hnn event [Hin Hnz]%weighted_spec.
  assert (0 ≤ Event_getChance event)%Z; [|lia].
  apply Hnn. apply list_elem_of_fmap. by exists (event, true).
Qed.

(** The selection over the pool searched: when some event of it passes [prepare] with a nonzero chance,
    [chooseFromEvents] draws below the total weight of the prepared events of
    nonzero chance and returns the first of them whose half-open interval
    [cumulativeBefore, cumulativeBefore + weight) holds the draw.  The last
    prepared event of chance zero is kept as the default, adds nothing to the
    total, and is not what is returned: the event returned has a nonzero
    chance. *)
Lemma chooseFromEvents_weighted_searched (self : Game) (char : nat)
    (events : option (list Event)) (state : option State) (w : World) :
  let run := prepare_all self char state (pool_of self events) w in
  let candidates := weighted run.1 in
  let total := sum_chance candidates in
  let draw := randbelow total run.2 in
  (∀ n w, (0 < n)%Z → (0 ≤ (randbelow n w).1 < n)%Z) →
  (∀ event, event ∈ pool_of self events → (0 ≤ Event_getChance event)%Z) →
  candidates ≠ [] →
  prepare_loop self char state (pool_of self events) (mkSelection [] 0 None) w =
    (Ok (mkSelection candidates total (fallback run.1)), run.2) ∧
  (∀ event, event ∈ candidates ↔ (event, true) ∈ run.1 ∧ Event_getChance event ≠ 0%Z) ∧
  (0 ≤ draw.1 < total)%Z ∧
  ∃ pre event post,
    candidates = pre ++ event :: post ∧
    in_interval draw.1 pre event ∧
    (∀ pre' e' post', pre = pre' ++ e' :: post' → ¬ in_interval draw.1 pre' e') ∧
    chooseFromEvents self char events state w = (Ok event, draw.2) ∧
    Event_getChance event ≠ 0%Z ∧
    fallback run.1 ≠ Some event.
Proof.
  intros run candidates total draw Hrand Hnn Hne.
  assert (0 < total)%Z as Hpos.
  { apply sum_chance_positive; [done|]. apply weighted_positive.
    unfold run. by rewrite prepare_all_events. }
  assert (0 ≤ draw.1 < total)%Z as Hdraw by by apply Hrand.
  split; [|split; [|split; [done|]]].
  - rewrite prepare_loop_spec. fold run. simpl. do 3 f_equal.
    by destruct (fallback run.1).
  - intros event. apply weighted_spec.
  - destruct (chooseFromEvents_candidates self char events state w Hne Hpos Hdraw)
      as (event & Hpick & Hrun).
    destruct (pick_loop_first _ _ _ _ Hpick) as (pre & post & Hsplit & Hint & Hfirst).
    assert (Event_getChance event ≠ 0%Z) as Hnz.
    { apply (weighted_spec run.1 event).
      assert (event ∈ pre ++ event :: post) as Hin by set_solver.
      by rewrite <- Hsplit in Hin. }
    exists pre, event, post. unfold in_interval, draw, total, candidates, run in *.
    split; [done|]. split; [lia|].
    split; [|split; [done|split; [done|]]].
    + intros pre' e' post' Hpre. specialize (Hfirst pre' e' post' Hpre). lia.
    + intros Hfb. by destruct (fallback_spec _ _ Hfb).
Qed.

(** Over the pool searched, [chooseFromEvents] raises exactly when no event passes
    [prepare] with a nonzero chance and none passes it with chance zero.
    When only events of chance zero are prepared, the last of them is
    returned.  In both cases the world is the one the single pass of
    [prepare] calls leaves: nothing is drawn and nothing is tried again, and
    the exception is the one of the [raise] statement. *)
Lemma chooseFromEvents_raises_searched (self : Game) (char : nat)
    (events : option (list Event)) (state : option State) (w : World) :
  let run := prepare_all self char state (pool_of self events) w in
  (∀ n w, (0 < n)%Z → (0 ≤ (randbelow n w).1 < n)%Z) →
  (∀ event, event ∈ pool_of self events → (0 ≤ Event_getChance event)%Z) →
  (raises (chooseFromEvents self char events state w).1 ↔
   weighted run.1 = [] ∧ fallback run.1 = None) ∧
  (raises (chooseFromEvents self char events state w).1 ↔
   ∀ event, (event, true) ∉ run.1) ∧
  (weighted run.1 = [] → fallback run.1 = None →
   chooseFromEvents self char events state w =
     (Raise (Exception "No events matched when choosing from events"), run.2)) ∧
  (∀ event, weighted run.1 = [] → fallback run.1 = Some event →
   chooseFromEvents self char events state w = (Ok event, run.2) ∧
   (event, true) ∈ run.1 ∧ Event_getChance event = 0%Z).
Proof.
  intros run Hrand Hnn.
  assert (raises (chooseFromEvents self char events state w).1 ↔
          weighted run.1 = [] ∧ fallback run.1 = None) as Hiff.
  { destruct (decide (weighted run.1 = [])) as [Hnone|Hne].
    - rewrite (chooseFromEvents_no_candidate self char events state w Hnone). fold run.
      destruct (fallback run.1); simpl.
      + split; [intros [err [=]] | intros [_ [=]]].
      + split; [done|]. intros _. by eexists.
    - assert (0 < sum_chance (weighted run.1))%Z as Hpos.
      { apply sum_chance_positive; [done|]. apply weighted_positive.
        unfold run. by rewrite prepare_all_events. }
      destruct (chooseFromEvents_candidates self char events state w Hne Hpos)
        as (event & _ & ->); [by apply Hrand|].
      simpl. split; [intros [err [=]] | tauto]. }
  split; [done|]. split; [|split].
  - rewrite Hiff. rewrite fallback_none. split.
    + intros [Hw Hf] event Hin.
      destruct (decide (Event_getChance event = 0%Z)) as [Hz|Hnz].
      * by apply (Hf event).
      * assert (event ∈ weighted run.1) as Hin' by by apply weighted_spec.
        rewrite Hw in Hin'. by apply elem_of_nil in Hin'.
    + intros Hall. split.
      * destruct (weighted run.1) as [|e l] eqn:Hw; [done|].
        exfalso. apply (Hall e).
        apply (weighted_spec run.1 e). rewrite Hw. by left.
      * intros event Hin. by destruct (Hall event).
  - intros Hw Hf. rewrite (chooseFromEvents_no_candidate self char events state w Hw).
    fold run.
    by rewrite Hf.
  - intros event Hw Hf.
    rewrite (chooseFromEvents_no_candidate self char events state w Hw). fold run.
    rewrite Hf. split; [done|]. by apply fallback_spec.
Qed.

(** C1: for every pool given to [chooseFromEvents], and for the library when
    none is given, in which some event passes [prepare] with a nonzero
    chance: the events prepared are those of that pool, in order; the draw is
    below the total weight of the prepared events of nonzero chance; the
    event returned is the first of them whose half-open interval
    [cumulativeBefore, cumulativeBefore + weight) holds the draw, and it is
    an event of that pool.  The last prepared event of chance zero is kept as
    the default, adds nothing to the total, and is not what is returned: the
    event returned has a nonzero chance. *)
Theorem chooseFromEvents_weighted (self : Game) (char : nat)
    (events : option (list Event)) (pool : list Event) (state : option State) (w : World) :
  let run := prepare_all self char state pool w in
  let candidates := weighted run.1 in
  let total := sum_chance candidates in
  let draw := randbelow total run.2 in
  events = Some pool ∨ (events = None ∧ pool = Game.events self) →
  (∀ n w, (0 < n)%Z → (0 ≤ (randbelow n w).1 < n)%Z) →
  (∀ event, event ∈ pool → (0 ≤ Event_getChance event)%Z) →
  candidates ≠ [] →
  run.1.*1 = pool ∧
  prepare_loop self char state pool (mkSelection [] 0 None) w =
    (Ok (mkSelection candidates total (fallback run.1)), run.2) ∧
  (∀ event, event ∈ candidates ↔ (event, true) ∈ run.1 ∧ Event_getChance event ≠ 0%Z) ∧
  (0 ≤ draw.1 < total)%Z ∧
  ∃ pre event post,
    candidates = pre ++ event :: post ∧
    in_interval draw.1 pre event ∧
    (∀ pre' e' post', pre = pre' ++ e' :: post' → ¬ in_interval draw.1 pre' e') ∧
    chooseFromEvents self char events state w = (Ok event, draw.2) ∧
    event ∈ pool ∧
    Event_getChance event ≠ 0%Z ∧
    fallback run.1 ≠ Some event.
Proof.
  intros run candidates total draw Hgiven Hrand Hnn Hne.
  assert (pool_of self events = pool) as Hpool.
  { destruct Hgiven as [->|[-> ->]]; [|done]. by destruct pool. }
  pose proof (chooseFromEvents_weighted_searched self char events state w) as Hmain.
  cbv zeta in Hmain. rewrite Hpool in Hmain.
  destruct (Hmain Hrand Hnn Hne)
    as (Hloop & Hcand & Hdraw & pre & event & post & Hsplit & Hint & Hfirst & Hrun & Hnz & Hfb).
  split; [apply prepare_all_events|]. split; [done|]. split; [done|]. split; [done|].
  exists pre, event, post. split; [done|]. split; [done|]. split; [done|].
  split; [done|]. split; [|done].
  rewrite <- (prepare_all_events self char state pool w).
  apply list_elem_of_fmap. exists (event, true). split; [done|].
  apply (proj1 (Hcand event)). rewrite Hsplit. apply elem_of_app. right. by left.
Qed.

(** C5 (as amended): over the pool searched, which is the pool given when it
    is not empty and the library when no pool or an empty pool is given,
    [chooseFromEvents] raises exactly when no event passes [prepare] with a
    nonzero chance and none passes it with chance zero, that is when no
    event passes [prepare].  When only events of chance zero are prepared,
    the last of them is returned.  In both cases the world is the one the
    single pass of [prepare] calls leaves: nothing is drawn and nothing is
    tried again, and the exception is the one of the [raise] statement. *)
Theorem chooseFromEvents_raises_iff (self : Game) (char : nat)
    (events : option (list Event)) (pool : list Event) (state : option State) (w : World) :
  let run := prepare_all self char state pool w in
  (events = Some pool ∧ pool ≠ []) ∨
  ((events = None ∨ events = Some []) ∧ pool = Game.events self) →
  (∀ n w, (0 < n)%Z → (0 ≤ (randbelow n w).1 < n)%Z) →
  (∀ event, event ∈ pool → (0 ≤ Event_getChance event)%Z) →
  run.1.*1 = pool ∧
  (raises (chooseFromEvents self char events state w).1 ↔
   weighted run.1 = [] ∧ fallback run.1 = None) ∧
  (raises (chooseFromEvents self char events state w).1 ↔
   ∀ event, (event, true) ∉ run.1) ∧
  (weighted run.1 = [] → fallback run.1 = None →
   chooseFromEvents self char events state w =
     (Raise (Exception "No events matched when choosing from events"), run.2)) ∧
  (∀ event, weighted run.1 = [] → fallback run.1 = Some event →
   chooseFromEvents self char events state w = (Ok event, run.2) ∧
   (event, true) ∈ run.1 ∧ Event_getChance event = 0%Z).
Proof.
  intros run Hgiven Hrand Hnn.
  assert (pool_of self events = pool) as Hpool.
  { destruct Hgiven as [[-> Hne]|[[->| ->] ->]]; [by destruct pool | done | done]. }
  pose proof (chooseFromEvents_raises_searched self char events state w) as Hmain.
  cbv zeta in Hmain. rewrite Hpool in Hmain.
  split; [apply prepare_all_events|]. by apply Hmain.
Qed.

Lemma pick_loop_elem (choice : Z) (candidates : list Event) (count : Z) (event : Event) :
  pick_loop choice candidates count = Some event → event ∈ candidates.
Proof.
  intros Hpick. destruct (pick_loop_first _ _ _ _ Hpick) as (pre & post & -> & _).
  set_solver.
Qed.

(** Whatever [chooseFromEvents] returns is an event of the pool it was given. *)
Lemma chooseFromEvents_in_pool (self : Game) (char : nat)
    (events : option (list Event)) (state : option State) (w w' : World) (event : Event) :
  chooseFromEvents self char events state w = (Ok event, w') →
  event ∈ pool_of self events.
Proof.
  set (run := prepare_all self char state (pool_of self events) w).
  assert (∀ e, (e, true) ∈ run.1 → e ∈ pool_of self events) as Hpool.
  { intros e Hin. rewrite <- (prepare_all_events self char state (pool_of self events) w).
    apply list_elem_of_fmap. by exists (e, true). }
  unfold chooseFromEvents, bind. rewrite prepare_loop_spec. fold run. simpl.
  destruct (weighted run.1) as [|e l] eqn:Hw.
  - destruct (fallback run.1) as [d|] eqn:Hf; [|done].
    intros [= <- _]. apply Hpool. by apply fallback_spec.
  - destruct (randint 0 _ run.2) as [[choice|err] w1]; [|done].
    destruct (pick_loop choice (e :: l) 0) as [picked|] eqn:Hpick; [|done].
    intros [= <- _]. apply pick_loop_elem in Hpick. rewrite <- Hw in Hpick.
    apply Hpool. by apply weighted_spec in Hpick as [Hin _].
Qed.

Lemma trigger_leaf (depth : nat) (self : Game) (char : nat) (event : Event)
    (w w1 : World) (state : State) :
  Event_trigger event w = ((state, []), w1) →
  trigger (S depth) self char event w = (Ok [render (mkStep event state [] w1)], w1).
Proof. intros Htr. simpl. unfold bind, call. by rewrite Htr. Qed.

Lemma trigger_step (depth : nat) (self : Game) (char : nat) (event sub : Event)
    (w w1 w2 : World) (state : State) (subEvents : list Event) :
  Event_trigger event w = ((state, subEvents), w1) → subEvents ≠ [] →
  chooseFromEvents self char (Some subEvents) (Some state) w1 = (Ok sub, w2) →
  trigger (S depth) self char event w =
    match trigger depth self char sub w2 with
    | (Ok more, w3) => (Ok (render (mkStep event state subEvents w1) :: more), w3)
    | (Raise e, w3) => (Raise e, w3)
    end.
Proof.
  intros Htr Hne Hchoose. simpl. unfold bind, call. rewrite Htr. simpl.
  destruct subEvents as [|s l]; [done|]. rewrite Hchoose.
  by destruct (trigger depth self char sub w2) as [[more|e] w3].
Qed.

Lemma chain_nonempty (self : Game) (char : nat) (event : Event) (w w' : World)
    (steps : list Step) :
  chain self char event w steps w' →
  ∃ first rest, steps = first :: rest ∧ step_event first = event.
Proof. destruct 1; by eexists _, _. Qed.

Lemma chain_linked (self : Game) (char : nat) (event : Event) (w w' : World)
    (steps : list Step) :
  chain self char event w steps w' → linked self char steps.
Proof.
  induction 1 as [|event w state subEvents w1 sub w2 steps w3 Htr Hne Hchoose Hchain IH];
    [done|].
  destruct (chain_nonempty _ _ _ _ _ _ Hchain) as (first & rest & -> & Hfirst).
  simpl. rewrite Hfirst. split; [|split; [by exists w2 | done]].
  apply chooseFromEvents_in_pool in Hchoose. simpl in Hchoose.
  by destruct subEvents.
Qed.

(** C2: a trigger chain of [N] steps makes [trigger], given recursion depth
    for it, return exactly [N] entries, the rendered text and result strings
    of each step in chain order, the top-level event's first; every later
    event is one of the sub-events its parent's [trigger] returned, picked by
    [chooseFromEvents] with the state that same call returned. *)
Theorem trigger_chain_order (self : Game) (char : nat) (event : Event) (w w' : World)
    (steps : list Step) (depth : nat) :
  chain self char event w steps w' →
  length steps ≤ depth →
  trigger depth self char event w = (Ok (render <$> steps), w') ∧
  length (render <$> steps) = length steps ∧
  (step_event <$> head steps) = Some event ∧
  linked self char steps.
Proof.
  intros Hchain Hdepth. split; [|split; [|split]].
  - revert depth Hdepth.
    induction Hchain as [|event w state subEvents w1 sub w2 steps w3 Htr Hne Hchoose Hchain IH];
      intros depth Hdepth; simpl in Hdepth.
    + destruct depth as [|depth]; [lia|]. by apply trigger_leaf.
    + destruct depth as [|depth]; [lia|].
      rewrite (trigger_step depth self char event sub w w1 w2 state subEvents) by done.
      rewrite IH by lia. done.
  - apply length_fmap.
  - by destruct (chain_nonempty _ _ _ _ _ _ Hchain) as (first & rest & -> & <-).
  - by eapply chain_linked.
Qed.

(** Every list [trigger] returns comes from a chain. *)
Lemma trigger_ok_chain (depth : nat) (self : Game) (char : nat) (event : Event)
    (w w' : World) (results : list TextResult) :
  trigger depth self char event w = (Ok results, w') →
  ∃ steps, chain self char event w steps w' ∧ results = render <$> steps.
Proof.
  revert event w results. induction depth as [|depth IH]; intros event w results; [done|].
  destruct (Event_trigger event w) as [[state subEvents] w1] eqn:Htr.
  destruct subEvents as [|s l].
  - rewrite (trigger_leaf depth self char event w w1 state Htr). intros [= <- <-].
    eexists. split; [by apply chain_leaf | done].
  - destruct (chooseFromEvents self char (Some (s :: l)) (Some state) w1)
      as [[sub|e] w2] eqn:Hchoose.
    + rewrite (trigger_step depth self char event sub w w1 w2 state (s :: l)) by done.
      destruct (trigger depth self char sub w2) as [[more|e] w3] eqn:Hsub; [|done].
      intros [= <- <-]. destruct (IH _ _ _ Hsub) as (steps & Hchain & ->).
      eexists. split; [by eapply chain_step | done].
    + simpl. unfold bind, call. rewrite Htr. simpl. by rewrite Hchoose.
Qed.

(** C10: [triggerByName] takes the first tribute whose [string()] equals the
    character name and the first event whose name equals the event name.
    Without such a tribute, or else without such an event, it returns one
    entry with the error text and no result strings, and the world is as
    before; when the event's [prepare] fails it returns the one entry
    ["Trigger failed"]; only when [prepare] succeeds does it run [trigger],
    on the world [prepare] left. *)
Theorem triggerByName_resolution (depth : nat) (self : Game)
    (charName eventName : string) (w : World) :
  let is_char := λ tribute, String.eqb (tribute_string w tribute) charName in
  let is_event := λ e, String.eqb (Event_getName e) eventName in
  (no_match is_char (tributes self) →
   triggerByName depth self charName eventName w =
     (Ok [("unable to find character named " +:+ charName, [])], w)) ∧
  (∀ char, first_match is_char (tributes self) char →
     tribute_string w char = charName ∧
     (no_match is_event (events self) →
      triggerByName depth self charName eventName w =
        (Ok [("unable to find event named " +:+ eventName, [])], w)) ∧
     (∀ event, first_match is_event (events self) event →
        Event_getName event = eventName ∧
        ∀ prepared w1,
          Event_prepare event char (tributes self) None w = (prepared, w1) →
          triggerByName depth self charName eventName w =
            if prepared then trigger depth self char event w1
            else (Ok [("Trigger failed", [])], w1))).
Proof.
  intros is_char is_event. split.
  - intros Hnone. unfold triggerByName. fold is_char.
    by rewrite (find_none_forall is_char _ Hnone).
  - intros char (pre & post & Hsplit & Hpre & Hchar).
    split; [by apply String.eqb_eq|].
    assert (List.find is_char (tributes self) = Some char) as Hfind
      by (rewrite Hsplit; by apply find_first).
    split.
    + intros Hnone. unfold triggerByName. fold is_char is_event.
      by rewrite Hfind, (find_none_forall is_event _ Hnone).
    + intros event (pre' & post' & Hsplit' & Hpre' & Hevent).
      split; [by apply String.eqb_eq|].
      intros prepared w1 Hprep. unfold triggerByName. fold is_char is_event.
      rewrite Hfind, Hsplit', (find_first is_event pre' post' event) by done.
      unfold bind, call. rewrite Hprep. by destruct prepared.
Qed.

End GameFacts.

Section GameSample.
Import Game Sample.

Lemma sample_randbelow_range (n : Z) (w : world) :
  (0 < n)%Z → (0 ≤ (randbelow n w).1 < n)%Z.
Proof.
  intros Hn. simpl. destruct (tape w) as [|z rest]; simpl; [lia|].
  by apply Z.mod_pos_bound.
Qed.

Lemma sample_chances_nonneg (events : list event) :
  Forall (λ e, 0 ≤ event_chance e)%Z events →
  ∀ e : Event, e ∈ events → (0 ≤ Event_getChance e)%Z.
Proof. intros Hall e Hin. by apply (proj1 (Forall_forall _ _) Hall). Qed.

Lemma chooseFromEvents_weighted_witness :
  ∃ event,
    chooseFromEvents arena 0 (Some [rest; finale; trap]) None calm = (Ok event, calm) ∧
    event ∈ [rest; finale; trap] ∧
    Event_getChance event ≠ 0%Z.
Proof.
  destruct (chooseFromEvents_weighted arena 0 (Some [rest; finale; trap])
              [rest; finale; trap] None calm)
    as (_ & _ & _ & _ & pre & event & post & _ & _ & _ & Hrun & Hin & Hnz & _).
  - left. reflexivity.
  - apply sample_randbelow_range.
  - apply sample_chances_nonneg. repeat constructor; vm_compute; discriminate.
  - vm_compute. discriminate.
  - exists event. split; [exact Hrun|]. split; [exact Hin | exact Hnz].
Defined.

Lemma chooseFromEvents_raises_iff_witness :
  raises (chooseFromEvents arena 0 (Some [trap]) None calm).1 ∧
  chooseFromEvents arena 0 (Some [trap; rest]) None calm = (Ok rest, calm).
Proof.
  split.
  - destruct (chooseFromEvents_raises_iff arena 0 (Some [trap]) [trap] None calm)
      as (_ & Hiff & _).
    + left. split; [reflexivity | discriminate].
    + apply sample_randbelow_range.
    + apply sample_chances_nonneg. repeat constructor; vm_compute; discriminate.
    + apply Hiff. split; reflexivity.
  - destruct (chooseFromEvents_raises_iff arena 0 (Some [trap; rest]) [trap; rest] None calm)
      as (_ & _ & _ & _ & Hfallback).
    + left. split; [reflexivity | discriminate].
    + apply sample_randbelow_range.
    + apply sample_chances_nonneg. repeat constructor; vm_compute; discriminate.
    + destruct (Hfallback rest) as (Hrun & _); [reflexivity | reflexivity | exact Hrun].
Defined.

(** C5 (as stated) fails at the empty pool: no event of the pool passes
    [prepare], there being none, and yet nothing is raised: the library is
    searched and one of its events is returned. *)
Lemma chooseFromEvents_empty_pool_counterexample :
  (∀ event : Event, (event, true) ∉ (prepare_all arena 0 None [] calm).1) ∧
  (∀ event : Event, event ∉ ([] : list Event)) ∧
  chooseFromEvents arena 0 (Some []) None calm = (Ok hunt, calm) ∧
  ¬ raises (chooseFromEvents arena 0 (Some []) None calm).1.
Proof.
  split; [|split; [|split]].
  - intros event Hin. by apply elem_of_nil in Hin.
  - intros event Hin. by apply elem_of_nil in Hin.
  - reflexivity.
  - intros [e Hraise]. discriminate Hraise.
Qed.

Lemma trigger_chain_order_witness :
  trigger 3 arena 0 saga calm =
    (Ok [("saga", []); ("mid", []); ("finale", [])], calm).
Proof.
  destruct (trigger_chain_order arena 0 saga calm calm saga_steps 3) as (Hrun & _).
  - eapply chain_step; [reflexivity | discriminate | reflexivity |].
    eapply chain_step; [reflexivity | discriminate | reflexivity |].
    apply chain_leaf. reflexivity.
  - simpl. lia.
  - exact Hrun.
Defined.

Lemma triggerByName_resolution_witness :
  triggerByName 3 arena "Birch" "feast" (world_of three_tributes []) =
    trigger 3 arena 1 feast (world_of three_tributes []) ∧
  triggerByName 3 arena "Birch" "trap" (world_of three_tributes []) =
    (Ok [("Trigger failed", [])], world_of three_tributes []) ∧
  triggerByName 3 arena "Elm" "feast" (world_of three_tributes []) =
    (Ok [("unable to find character named Elm", [])], world_of three_tributes []).
Proof.
  split; [|split].
  - destruct (triggerByName_resolution 3 arena "Birch" "feast" (world_of three_tributes []))
      as (_ & Hfound).
    destruct (Hfound 1) as (_ & _ & Hevent).
    + exists [0], [2]. split; [reflexivity|]. split; [repeat constructor | reflexivity].
    + destruct (Hevent feast) as (_ & Hrun).
      * exists [trap; hunt; rest], [saga]. split; [reflexivity|].
        split; [repeat constructor | reflexivity].
      * exact (Hrun true _ eq_refl).
  - destruct (triggerByName_resolution 3 arena "Birch" "trap" (world_of three_tributes []))
      as (_ & Hfound).
    destruct (Hfound 1) as (_ & _ & Hevent).
    + exists [0], [2]. split; [reflexivity|]. split; [repeat constructor | reflexivity].
    + destruct (Hevent trap) as (_ & Hrun).
      * exists [], [hunt; rest; feast; saga]. split; [reflexivity|].
        split; [constructor | reflexivity].
      * exact (Hrun false _ eq_refl).
  - destruct (triggerByName_resolution 3 arena "Elm" "feast" (world_of three_tributes []))
      as (Hnone & _).
    apply Hnone. repeat constructor.
Defined.

End GameSample.

(** ** Character: tags, items, counters and location *)

Section CharacterMore.
Context `{ItemAPI} `{ZoneAPI} `{TextAPI}.
Import Character.

Lemma hasTag_iff (c : Character) (tag : String.string) :
  hasTag c tag = true ↔ tag ∈ tags c.
Proof.
  unfold hasTag, py_in. rewrite existsb_exists. split.
  - intros (y & Hin & Heq). apply String.eqb_eq in Heq as ->. by apply list_elem_of_In.
  - intros Hin. exists tag. split; [by apply list_elem_of_In | apply String.eqb_refl].
Qed.

Lemma py_remove_none {A} (eqb : A → A → bool) (x : A) (l : list A) :
  py_remove eqb x l = None ↔ ∀ y, y ∈ l → eqb y x = false.
Proof.
  induction l as [|y l IH]; simpl.
  - split; [|done]. intros _ y Hy. by apply elem_of_nil in Hy.
  - destruct (eqb y x) eqn:Hyx.
    + split; [done|]. intros Hall. rewrite Hall in Hyx; [done | by left].
    + destruct (py_remove eqb x l) as [rest|]; simpl.
      * split; [done|]. intros Hall.
        assert (Some rest = None) as Hn; [|done].
        apply IH. intros z Hz. apply Hall. by right.
      * split; [|done]. intros _ z [->|Hz]%elem_of_cons; [done|].
        by apply (proj1 IH).
Qed.

Lemma py_remove_length {A} (eqb : A → A → bool) (x : A) (l rest : list A) :
  py_remove eqb x l = Some rest → length l = S (length rest).
Proof.
  revert rest. induction l as [|y l IH]; intros rest; simpl; [done|].
  destruct (eqb y x); [by intros [= ->]|].
  destruct (py_remove eqb x l) as [rest'|]; simpl; [|done].
  intros [= <-]. simpl. by rewrite (IH rest').
Qed.

Lemma py_remove_last {A} (eqb : A → A → bool) (x : A) (l : list A) :
  (∀ y, y ∈ l → eqb y x = false) → eqb x x = true →
  py_remove eqb x (l ++ [x]) = Some l.
Proof.
  intros Hall Hrefl. induction l as [|y l IH]; simpl; [by rewrite Hrefl|].
  rewrite Hall by by left. rewrite IH; [done|]. intros z Hz. apply Hall. by right.
Qed.

Lemma addTag_present (c : Character) (tag : String.string) :
  hasTag c tag = true → addTag c tag = c.
Proof. intros Hhas. unfold addTag. by rewrite Hhas. Qed.

Lemma addTag_absent (c : Character) (tag : String.string) :
  hasTag c tag = false → addTag c tag = with_tags c (tags c ++ [tag]).
Proof. intros Hhas. unfold addTag. by rewrite Hhas. Qed.

(** X1: [addTag] never lists a tag twice: it keeps a duplicate-free tag list
    duplicate-free, the tag is present afterwards, every earlier tag stays,
    and adding the same tag again changes nothing. *)
Theorem addTag_no_duplicates (c : Character) (tag : String.string) :
  NoDup (tags c) →
  NoDup (tags (addTag c tag)) ∧
  hasTag (addTag c tag) tag = true ∧
  (∀ t, t ∈ tags (addTag c tag) ↔ t ∈ tags c ∨ t = tag) ∧
  addTag (addTag c tag) tag = addTag c tag.
Proof.
  intros Hnd. destruct (hasTag c tag) eqn:Hhas.
  - rewrite !(addTag_present c tag Hhas). split; [done|]. split; [done|].
    split; [|done]. intros t. apply hasTag_iff in Hhas. split; [tauto|].
    by intros [?| ->].
  - assert (tag ∉ tags c) as Hnot by (rewrite <- hasTag_iff; congruence).
    rewrite !(addTag_absent c tag Hhas).
    assert (hasTag (with_tags c (tags c ++ [tag])) tag = true) as Hnow.
    { apply hasTag_iff. simpl. apply elem_of_app. right. by apply list_elem_of_singleton. }
    split; [|split; [done|split]].
    + simpl. apply NoDup_app. split; [done|]. split; [|apply NoDup_singleton].
      intros t Ht. rewrite list_elem_of_singleton. by intros ->.
    + intros t. simpl. rewrite elem_of_app, list_elem_of_singleton. tauto.
    + by apply addTag_present.
Qed.

(** X2: [removeTag] of a tag the character does not have raises [ValueError];
    removing a tag right after adding it to a character that did not have it
    gives the character back. *)
Theorem removeTag_addTag (c : Character) (tag : String.string) :
  hasTag c tag = false →
  removeTag c tag = Raise (ValueError "list.remove(x): x not in list") ∧
  removeTag (addTag c tag) tag = Ok c.
Proof.
  intros Hhas.
  assert (∀ y, y ∈ tags c → String.eqb y tag = false) as Hall.
  { intros y Hy. apply String.eqb_neq. intros ->.
    apply hasTag_iff in Hy. congruence. }
  split.
  - unfold removeTag. by rewrite (proj2 (py_remove_none String.eqb tag (tags c)) Hall).
  - unfold removeTag, addTag. rewrite Hhas. simpl.
    rewrite py_remove_last; [by destruct c | done | apply String.eqb_refl].
Qed.

Lemma life_counters_grow (c : Character) (ops : list LifeOp) :
  let c' := foldl life_step c ops in
  let rounds := Z.of_nat (length (List.filter is_incAge ops)) in
  getAge c' = (getAge c + rounds)%Z ∧
  (getRoundsSurvived c ≤ getRoundsSurvived c' ≤ getRoundsSurvived c + rounds)%Z ∧
  same_key c c' ∧ items c' = items c ∧ tags c' = tags c ∧
  location c' = location c ∧ alliance c' = alliance c.
Proof.
  revert c. induction ops as [|op ops IH]; intros c; simpl.
  - unfold getAge, getRoundsSurvived, same_key. split; [lia|]. split; [lia|]. done.
  - specialize (IH (life_step c op)). simpl in IH.
    destruct IH as (Hage & Hrounds & Hkey & Hitems & Htags & Hloc & Hal).
    unfold getAge, getRoundsSurvived, same_key in *.
    rewrite Hage, Hitems, Htags, Hloc, Hal.
    destruct Hkey as (<- & <- & <- & <- & <- & <- & <- & <-).
    destruct op; simpl in *; [split; [lia|]; split; [lia|]; done ..|].
    destruct (isAlive c); (split; [lia|]; split; [lia|]; done).
Qed.

(** X3: After any sequence of [kill], [revive] and [incAge] calls the age has
    grown by the number of [incAge] calls, and the rounds survived have grown
    by at most that number and never shrunk; so rounds survived that were
    below the age, as for a new character, stay below it.  None of the calls
    touches the name, the pronouns, the items, the tags, the location or the
    alliance. *)
Theorem life_counters (c : Character) (ops : list LifeOp) :
  let c' := foldl life_step c ops in
  let rounds := Z.of_nat (length (List.filter is_incAge ops)) in
  getAge c' = (getAge c + rounds)%Z ∧
  (getRoundsSurvived c ≤ getRoundsSurvived c' ≤ getRoundsSurvived c + rounds)%Z ∧
  ((getRoundsSurvived c < getAge c)%Z → (getRoundsSurvived c' < getAge c')%Z) ∧
  same_key c c' ∧ items c' = items c ∧ tags c' = tags c ∧
  location c' = location c ∧ alliance c' = alliance c.
Proof.
  intros c' rounds.
  destruct (life_counters_grow c ops) as (Hage & Hrounds & Hrest).
  fold c' rounds in Hage, Hrounds, Hrest.
  split; [done|]. split; [done|]. split; [lia | done].
Qed.

(** X4: [takeItem] of the item [getItemByName] (or any search of the inventory)
    found succeeds and takes exactly one item out of the inventory; taking an
    item that no inventory item is, or equals, raises [ValueError]. *)
Theorem takeItem_found (c : Character) (item : Item) :
  (item ∈ items c →
   ∃ c', takeItem c item = Ok c' ∧ length (items c) = S (length (items c')) ∧
         tags c' = tags c ∧ alliance c' = alliance c ∧ name c' = name c) ∧
  ((∀ other, other ∈ items c → item_eqb other item = false) →
   takeItem c item = Raise (ValueError "list.remove(x): x not in list")) ∧
  (∀ itemName, getItemByName c itemName = Some item →
     item ∈ items c ∧ Item_getName item = itemName).
Proof.
  split; [|split].
  - intros Hin. unfold takeItem.
    destruct (py_remove item_eqb item (items c)) as [rest|] eqn:Hrm.
    + eexists. split; [done|]. simpl. split; [|done]. by eapply py_remove_length.
    + exfalso. assert (item_eqb item item = false) as Hfalse
        by by apply (proj1 (py_remove_none item_eqb item (items c)) Hrm).
      unfold item_eqb in Hfalse. by rewrite bool_decide_eq_true_2 in Hfalse.
  - intros Hall. unfold takeItem.
    by rewrite (proj2 (py_remove_none item_eqb item (items c)) Hall).
  - intros itemName Hfind. unfold getItemByName in Hfind.
    apply find_some in Hfind as [Hin Hname].
    split; [by apply list_elem_of_In | by apply String.eqb_eq].
Qed.

(** X5: [isIn] raises [AttributeError] exactly on a character without location,
    where [getLocationStr] answers ["No location"]; after [move] to a zone,
    [isIn] with that zone's name is true and [getLocationStr] is that name. *)
Theorem isIn_location (c : Character) (loc : String.string) (z : Zone) :
  (raises (isIn c loc) ↔ location c = None) ∧
  (location c = None → getLocationStr c = "No location") ∧
  isIn (move c z) (Zone_name z) = Ok true ∧
  getLocationStr (move c z) = Zone_name z ∧
  (isIn (move c z) loc = Ok true ↔ Zone_name z = loc).
Proof.
  unfold isIn, getLocationStr. simpl. split; [|split; [|split; [|split]]].
  - destruct (location c); split; try done; [by intros [e [=]] | by eexists].
  - by intros ->.
  - by rewrite String.eqb_refl.
  - done.
  - split; [intros [= Heq]; by apply String.eqb_eq | intros ->; by rewrite String.eqb_refl].
Qed.

(** X6: Python's contract between [__eq__] and [__hash__] holds for characters:
    two characters that compare equal have the same hash. *)
Theorem eq_implies_same_hash (c1 c2 : Character) :
  __eq__ c1 (obj_Character c2) = true → __hash__ c1 = __hash__ c2.
Proof.
  intros Heq. destruct (eq_true_fields c1 c2 Heq)
    as ((Hn & Hi & Hs & Ho & Hp1 & Hp2 & Hf & Hp) & _).
  unfold __hash__. by rewrite Hn, Hi, Hs, Ho, Hp1, Hp2, Hf, Hp.
Qed.

End CharacterMore.

(** ** Character: more on alliances *)

Section AllianceMore.
Context `{ItemAPI} `{ZoneAPI} `{TextAPI}.
Import Character.

Lemma isAllyOf_member (h : Heap) (a b : nat) :
  alliances_ok h → a ∈ dom (chars h) → b ∈ dom (chars h) →
  isAllyOf h a b = true ↔ b ∈ list_at h (getAlliance h a).
Proof.
  intros (Hwf & Hinv & Hnd & Hdist) Ha Hb.
  apply heap_wf_iff in Hwf as [Hwfc Hwfl]. unfold isAllyOf, getAlliance. split.
  - unfold py_in. rewrite existsb_exists. intros (y & Hy%list_elem_of_In & Heq).
    assert (y = b) as <-; [|done].
    apply (char_eqb_distinct h); [done | | done | done].
    eapply Hwfl; [|done]. by apply Hwfc.
  - intros Hin. apply py_in_elem; [apply char_eqb_refl | done].
Qed.

Lemma ally_shares_collection (h : Heap) (a b : nat) :
  alliances_ok h → a ∈ dom (chars h) → b ∈ dom (chars h) →
  b ∈ list_at h (getAlliance h a) →
  getAlliance h b = getAlliance h a ∧ a ∈ list_at h (getAlliance h a).
Proof.
  intros (Hwf & Hinv & Hnd & Hdist) Ha Hb Hin.
  apply heap_wf_iff in Hwf as [Hwfc Hwfl].
  destruct (proj1 (alliance_inv_iff h) Hinv (getAlliance h a)) as [Hm Hr].
  - by apply Hwfc.
  - intros Hnil. rewrite Hnil in Hin. by apply elem_of_nil in Hin.
  - split; [by apply Hm | by apply Hr].
Qed.

(** X7: In a store in order, [isAllyOf] is symmetric, and two allies share one
    collection; a character is its own ally exactly when it is not alone. *)
Theorem isAllyOf_symmetric (h : Heap) (a b : nat) :
  alliances_ok h → a ∈ dom (chars h) → b ∈ dom (chars h) →
  isAllyOf h a b = isAllyOf h b a ∧
  (isAllyOf h a b = true → getAlliance h a = getAlliance h b) ∧
  isAllyOf h a a = negb (isAlone h a).
Proof.
  intros Hok Ha Hb.
  assert (∀ x y, x ∈ dom (chars h) → y ∈ dom (chars h) →
                 isAllyOf h x y = true → isAllyOf h y x = true) as Hsym.
  { intros x y Hx Hy Hxy. apply isAllyOf_member in Hxy; [|done..].
    destruct (ally_shares_collection h x y Hok Hx Hy Hxy) as [Heq Hxin].
    apply isAllyOf_member; [done..|]. by rewrite Heq. }
  split; [|split].
  - destruct (isAllyOf h a b) eqn:Hab, (isAllyOf h b a) eqn:Hba; try done.
    + rewrite (Hsym a b) in Hba; done.
    + rewrite (Hsym b a) in Hab; done.
  - intros Hab. apply isAllyOf_member in Hab; [|done..].
    by destruct (ally_shares_collection h a b Hok Ha Hb Hab) as [-> _].
  - destruct (isAlone h a) eqn:Halone; simpl.
    + apply not_true_is_false. intros Haa. apply isAllyOf_member in Haa; [|done..].
      apply isAlone_iff in Halone. unfold getAlliance in Haa. rewrite Halone in Haa.
      by apply elem_of_nil in Haa.
    + apply isAllyOf_member; [done..|].
      destruct Hok as (Hwf & Hinv & _). apply heap_wf_iff in Hwf as [Hwfc _].
      apply isAlone_false_iff in Halone.
      by apply (proj1 (alliance_inv_iff h) Hinv (getAlliance h a) (Hwfc a Ha) Halone).
Qed.

Lemma list_at_left_heap (h : Heap) (self : nat) (rest : list nat) (k : nat) :
  k ∈ dom (lists h) → getAlliance h self ∈ dom (lists h) →
  list_at (left_heap h self rest) k =
  if decide (getAlliance h self = k) then rest else list_at h k.
Proof.
  intros Hk Hl. unfold left_heap, list_at, getAlliance. simpl.
  rewrite lookup_total_insert.
  destruct (decide (fresh (dom (<[alliance (deref h self):=rest]> (lists h))) = k))
    as [Hfresh|_]; [|apply lookup_total_insert].
  exfalso. apply (is_fresh (dom (<[alliance (deref h self):=rest]> (lists h)))).
  rewrite Hfresh, dom_insert_L. by apply elem_of_union_r.
Qed.

(** X8: Joining a collection and leaving it again gives the collection back as
    it was: for a character that is alone and joins as [joinAlliance]
    expects, [leaveAlliance] right after succeeds, the collection holds
    exactly its earlier members in their earlier order, the character is
    alone again, and the store is in order. *)
Theorem join_then_leave (h : Heap) (self al : nat) :
  alliances_ok h → self ∈ dom (chars h) → al ∈ dom (lists h) →
  isAlone h self = true →
  (list_at h al = [] →
   ∀ c, c ∈ dom (chars h) → c ≠ self → getAlliance h c ≠ al) →
  ∃ h', leaveAlliance self (joinAlliance self al h) = (Ok (), h') ∧
        list_at h' al = list_at h al ∧
        isAlone h' self = true ∧
        alliances_ok h'.
Proof.
  intros Hok Hself Hal Halone Hfresh.
  destruct (joinAlliance_ok h self al Hok Hself Hal Halone Hfresh)
    as (Hok1 & Hlist & Hself1 & Halone1 & _).
  pose proof (alone_not_member h self al (proj1 (proj2 Hok)) Halone Hal) as Hnotin.
  set (h1 := joinAlliance self al h) in *.
  assert (self ∈ dom (chars h1)) as Hself' by (unfold h1; by rewrite join_dom_chars).
  assert (al ∈ dom (lists h1)) as Hal' by (unfold h1; by rewrite join_dom_lists).
  assert (py_remove (char_eqb h1) self (list_at h1 (alliance (deref h1 self))) =
          Some (list_at h al)) as Hrm.
  { change (alliance (deref h1 self)) with (getAlliance h1 self).
    rewrite Hself1, Hlist. apply py_remove_last; [|apply char_eqb_refl].
    intros y Hy. apply not_true_is_false. intros Heq.
    assert (y = self) as ->; [|done].
    destruct Hok1 as (Hwf1 & _ & _ & Hdist1).
    apply (char_eqb_distinct h1); [done | | done | done].
    apply heap_wf_iff in Hwf1 as [_ Hwfl1]. apply (Hwfl1 al); [done|].
    rewrite Hlist. apply elem_of_app. by left. }
  destruct (leaveAlliance_ok h1 self Hok1 Hself') as (h' & Hrun & Hok' & Halone' & _).
  exists h'. split; [done|].
  rewrite (leaveAlliance_allied h1 self _ Halone1 Hrm) in Hrun.
  injection Hrun as <-. split; [|done].
  rewrite list_at_left_heap; [|done|by rewrite Hself1].
  by rewrite Hself1, decide_True.
Qed.

(** X9: [leaveAlliance] by a character whose collection is not empty and holds no
    element that is, or equals, the character raises [ValueError] and leaves
    the store as it was. *)
Theorem leaveAlliance_not_listed (h : Heap) (self : nat) :
  isAlone h self = false →
  (∀ y, y ∈ list_at h (getAlliance h self) → char_eqb h y self = false) →
  leaveAlliance self h = (Raise (ValueError "list.remove(x): x not in list"), h).
Proof.
  intros Halone Hall. unfold leaveAlliance. rewrite Halone.
  change (alliance (deref h self)) with (getAlliance h self).
  by rewrite (proj2 (py_remove_none (char_eqb h) self _) Hall).
Qed.

(** X10: [reset] does not leave the alliance: the character gets a new empty
    collection and its initial items, tags, location, liveness and counters,
    but every collection of the store is as before, so a character that
    listed it still has it as an ally. *)
Theorem reset_keeps_membership (h : Heap) (self : nat) :
  heap_wf h → self ∈ dom (chars h) →
  let h' := reset self h in
  isAlone h' self = true ∧
  getAlliance h' self ∉ dom (lists h) ∧
  (∀ l, l ∈ dom (lists h) → list_at h' l = list_at h l) ∧
  (∀ m, m ∈ dom (chars h) → m ≠ self →
        deref h' m = deref h m ∧
        (self ∈ list_at h (getAlliance h m) → isAllyOf h' m self = true)) ∧
  same_key (deref h' self) (deref h self) ∧
  items (deref h' self) = [] ∧ tags (deref h' self) = [] ∧
  location (deref h' self) = None ∧ isAlive (deref h' self) = true ∧
  getAge (deref h' self) = 1%Z ∧ getRoundsSurvived (deref h' self) = 0%Z.
Proof.
  intros Hwf Hself. cbv zeta.
  apply heap_wf_iff in Hwf as [Hwfc Hwfl].
  pose proof (is_fresh (dom (lists h))) as Hfresh.
  assert (∀ c, deref (reset self h) c =
    if decide (self = c)
    then mkCharacter (name (deref h self)) (imgSrc (deref h self)) (subj (deref h self))
           (obj (deref h self)) (plur1 (deref h self)) (plur2 (deref h self))
           (flex (deref h self)) (plural (deref h self)) [] [] None
           (fresh (dom (lists h))) true 1 0
    else deref h c) as Hderef.
  { intros c. unfold reset, deref. simpl. apply lookup_total_insert. }
  assert (∀ l, list_at (reset self h) l =
               if decide (fresh (dom (lists h)) = l) then [] else list_at h l) as Hlist.
  { intros l. unfold reset, list_at. simpl. apply lookup_total_insert. }
  assert (∀ l, l ∈ dom (lists h) → list_at (reset self h) l = list_at h l) as Hold.
  { intros l Hl. rewrite Hlist. case_decide; [congruence | done]. }
  split; [|split; [|split; [done|split]]].
  - apply isAlone_iff. rewrite Hderef, decide_True by done. simpl.
    rewrite Hlist. by rewrite decide_True.
  - unfold getAlliance. rewrite Hderef, decide_True by done. done.
  - intros m Hm Hne. rewrite Hderef, decide_False by done. split; [done|].
    intros Hin. unfold isAllyOf. rewrite Hderef, decide_False by done.
    rewrite Hold by by apply Hwfc.
    apply py_in_elem; [apply char_eqb_refl | done].
  - rewrite Hderef, decide_True by done. done.
Qed.

End AllianceMore.

(** ** Checks: construction and evaluation of the other conditions *)

Section CheckMore.
Context `{WorldAPI} `{!ValidsAPI}.
Import Check.

(** X11: No discriminator token belongs to two classes, every class is in
    [ALLCHECKCLASSES], and every class has a token: the token alone decides
    the class. *)
Theorem matches_disjoint (cls1 cls2 : CheckClass) (token : string) :
  (py_in String.eqb token (matches cls1) = true →
   py_in String.eqb token (matches cls2) = true → cls1 = cls2) ∧
  cls1 ∈ ALLCHECKCLASSES ∧ matches cls1 ≠ [] ∧ NoDup ALLCHECKCLASSES.
Proof.
  split; [|split; [|split]].
  - intros H1' H2'. destruct cls1, cls2; try reflexivity; exfalso;
      unfold py_in in H1'; cbn [matches existsb] in H1';
      repeat (apply orb_true_iff in H1' as [H1'|H1'];
              [apply String.eqb_eq in H1'; subst token;
               vm_compute in H2'; discriminate H2'|]);
      discriminate H1'.
  - destruct cls1; unfold ALLCHECKCLASSES; repeat (first [by left | right]).
  - by destruct cls1.
  - unfold ALLCHECKCLASSES. repeat (apply NoDup_cons; split; [set_solver|]).
    apply NoDup_nil_2.
Qed.

(** X12: The two Liveness conditions are complementary, and so are the two
    Solitude conditions: on every character exactly one of [alive]/[dead],
    and exactly one of [alone]/[allied], passes.  None of them changes
    anything; a Solitude condition with any other state never passes, and a
    Liveness condition with any other state tests for death. *)
Theorem liveness_solitude_complementary (char : nat) (state : State) (w : World)
    (other : string) :
  let alive := Character.isAlive (Character.deref (world_heap w) char) in
  let alone := Character.isAlone (world_heap w) char in
  check (AliveCheck ALIVE) char state w = (Ok alive, w) ∧
  check (AliveCheck DEAD) char state w = (Ok (negb alive), w) ∧
  check (AloneCheck ALONE) char state w = (Ok alone, w) ∧
  check (AloneCheck ALLIED) char state w = (Ok (negb alone), w) ∧
  (other ≠ ALIVE → check (AliveCheck other) char state w = (Ok (negb alive), w)) ∧
  (other ≠ ALONE → other ≠ ALLIED →
   check (AloneCheck other) char state w = (Ok false, w)).
Proof.
  intros alive alone. split; [done|]. split; [done|].
  split; [cbn; fold alone; by destruct alone|].
  split; [cbn; fold alone; by destruct alone|]. split.
  - intros Hne. cbn. by rewrite (proj2 (String.eqb_neq other ALIVE) Hne).
  - intros Hne1 Hne2. cbn.
    by rewrite (proj2 (String.eqb_neq other ALONE) Hne1),
               (proj2 (String.eqb_neq other ALLIED) Hne2).
Qed.

(** X13: A [CreateCheck] whose candidate pool is empty raises [IndexError] and
    binds nothing; with a non-empty pool, and a draw within the pool, it
    returns true and the one change to the state is the binding of a member
    of the pool, whatever the character carries. *)
Theorem CreateCheck_check_pool (rType itemShort : string) (itemTags : list string)
    (pool : list Item) (char : nat) (state : State) (w : World) :
  let size := Z.of_nat (length pool) in
  (pool = [] →
   check (CreateCheck rType itemShort itemTags pool) char state w =
     (Raise (IndexError "Cannot choose from an empty sequence"), w)) ∧
  (pool ≠ [] → (0 ≤ (randbelow size w).1 < size)%Z →
   ∃ item, item ∈ pool ∧
     check (CreateCheck rType itemShort itemTags pool) char state w =
       (Ok true, State_setItem state itemShort item (randbelow size w).2)).
Proof.
  intros size. split.
  - by intros ->.
  - intros Hne Hdraw. cbn. unfold choice, bind, call.
    destruct pool as [|first pool']; [done|]. fold size.
    destruct (randbelow size w) as [i w1] eqn:Hrand. simpl in Hdraw.
    destruct ((first :: pool') !! Z.to_nat i) as [item|] eqn:Hitem.
    + exists item. split; [by eapply list_elem_of_lookup_2 | done].
    + exfalso. apply lookup_ge_None in Hitem. unfold size in Hdraw. lia.
Qed.

(** X14: An [itemeq] condition authored without a name is constructed without
    complaint, and fails only when it is evaluated: [check] raises
    [IndexError] and leaves the world alone.  A [createeq] condition without
    a name raises [IndexError] already in its constructor. *)
Theorem itemeq_without_name (itemShort : string) (v v1 : Valids)
    (char : nat) (state : State) (w : World) :
  addItemShortToValids itemShort v = (Ok (), v1) →
  __init__ cItemCheck [ItemCheck_BY_NAME; itemShort] v =
    (Ok (ItemCheck ItemCheck_BY_NAME itemShort []), v1) ∧
  check (ItemCheck ItemCheck_BY_NAME itemShort []) char state w =
    (Raise (IndexError "list index out of range"), w) ∧
  __init__ cCreateCheck [CreateCheck_BY_NAME; itemShort] v =
    (Raise (IndexError "list index out of range"), v1).
Proof.
  intros Hadd. split; [|split].
  - cbn. unfold bind. by rewrite Hadd.
  - done.
  - cbn. unfold bind. by rewrite Hadd.
Qed.

Lemma checkAll_loop_length (cs : list Check) (char : nat) (state : State)
    (acc results : list bool) (w w' : World) :
  checkAll_loop cs char state acc w = (Ok results, w') →
  length results = length acc + length cs.
Proof.
  revert acc w. induction cs as [|c cs IH]; intros acc w; simpl.
  - intros [= <- <-]. lia.
  - intros Hrun. apply bind_inv_ok in Hrun as (res & w1 & _ & Hrun).
    rewrite (IH _ _ Hrun), length_app. simpl. lia.
Qed.

Lemma checkAll_loop_evaluated (cs : list Check) (char : nat) (state : State)
    (acc results : list bool) (w w' : World) :
  checkAll_loop cs char state acc w = (Ok results, w') ↔
  ∃ bs, results = acc ++ bs ∧ evaluated char state cs w bs w'.
Proof.
  revert acc w. induction cs as [|c cs IH]; intros acc w; cbn [checkAll_loop].
  - split.
    + intros [= <- <-]. exists []. split; [by rewrite app_nil_r | constructor].
    + intros (bs & -> & Hev). inversion Hev; subst. by rewrite app_nil_r.
  - split.
    + intros Hrun. apply bind_inv_ok in Hrun as (b & w1 & Hc & Hrun).
      apply IH in Hrun as (bs & -> & Hev). exists (b :: bs).
      split; [by rewrite <- app_assoc | by econstructor].
    + intros (bs & -> & Hev). inversion Hev as [|? ? ? b w1 bs' ? Hc Hrest]; subst.
      rewrite (bind_ok _ _ _ _ _ Hc). apply IH. exists bs'.
      split; [by rewrite <- app_assoc | done].
Qed.

Lemma checkAll_loop_raises (pre post : list Check) (c : Check) (char : nat)
    (state : State) (acc bs : list bool) (w w1 w2 : World) (e : exn) :
  evaluated char state pre w bs w1 →
  check c char state w1 = (Raise e, w2) →
  checkAll_loop (pre ++ c :: post) char state acc w = (Raise e, w2).
Proof.
  intros Hev. revert acc. induction Hev as [w|c0 cs w b w1 bs w3 Hc _ IH];
    intros acc Hraise; cbn [app checkAll_loop].
  - by rewrite (bind_raise _ _ _ _ _ Hraise).
  - rewrite (bind_ok _ _ _ _ _ Hc). by apply IH.
Qed.

(** X15: [checkAll] does not stop at the first condition that fails: it
    returns exactly when every condition of the suite, called in order, each
    in the world the one before it left, returns, and its results are theirs,
    one per condition, whether true or false; it raises as soon as a
    condition raises, with that condition's exception and world, the
    conditions before it having been evaluated. *)
Theorem checkAll_every_check (self : CheckSuite) (char : nat) (state : State) (w : World) :
  (∀ results w', checkAll self char state w = (Ok results, w') ↔
     evaluated char state (checks self) w results w') ∧
  (∀ results w', checkAll self char state w = (Ok results, w') →
     length results = length (checks self)) ∧
  (∀ pre c post bs w1 e w2,
     checks self = pre ++ c :: post →
     evaluated char state pre w bs w1 →
     check c char state w1 = (Raise e, w2) →
     checkAll self char state w = (Raise e, w2)).
Proof.
  split; [|split].
  - intros results w'. unfold checkAll. rewrite checkAll_loop_evaluated.
    split; [by intros (bs & -> & Hev) | intros Hev; by exists results].
  - intros results w' Hrun. unfold checkAll in Hrun.
    by rewrite (checkAll_loop_length _ _ _ _ _ _ _ Hrun).
  - intros pre c post bs w1 e w2 Hchecks Hev Hraise. unfold checkAll.
    rewrite Hchecks. by eapply checkAll_loop_raises.
Qed.

(** X16: Proximity conditions: any state but [nearby] passes without asking the
    simulation state for a character; [nearby] may be constructed without a
    target, as the implicit condition of [addNearbyCheckIfNeeded] is, and is
    then evaluated by asking the state for the character bound to [None],
    whose failure is the check's failure; [anydistance] with a target is
    refused by the constructor. *)
Theorem NearbyCheck_targets (st : string) (target : option string) (x : string)
    (v : Valids) (char : nat) (state : State) (w : World) :
  (st ≠ NEARBY → check (NearbyCheck st target) char state w = (Ok true, w)) ∧
  __init__ cNearbyCheck [NEARBY] v = (Ok (NearbyCheck NEARBY None), v) ∧
  __init__ cNearbyCheck [ANYDISTANCE; x] v =
    (Raise (ValueError "wrong number of values to unpack"), v) ∧
  (∀ e w1, State_getChar state None w = (Raise e, w1) →
           check (NearbyCheck NEARBY None) char state w = (Raise e, w1)) ∧
  (∀ c w1, State_getChar state target w = (Ok c, w1) →
           check (NearbyCheck NEARBY target) char state w =
             (Ok (Character.isNearby (Character.deref (world_heap w1) char)
                    (Character.deref (world_heap w1) c)), w1)).
Proof.
  split; [|split; [done|split; [done|split]]].
  - intros Hne. cbn. by rewrite (proj2 (String.eqb_neq st NEARBY) Hne).
  - intros e w1 Hget. cbn. unfold bind. by rewrite Hget.
  - intros c w1 Hget. cbn. unfold bind. by rewrite Hget.
Qed.

End CheckMore.

(** ** Event resolution: weights, failures and rounds *)

Section GameMore.
Context `{EventAPI}.
Import Game.

Lemma sum_chance_nonneg (l : list Event) :
  (∀ x, x ∈ l → 0 ≤ Event_getChance x)%Z → (0 ≤ sum_chance l)%Z.
Proof.
  induction l as [|e l IH]; simpl; [lia|]. intros Hall.
  assert (0 ≤ Event_getChance e)%Z by (apply Hall; by left).
  assert (0 ≤ sum_chance l)%Z by (apply IH; intros; apply Hall; by right). lia.
Qed.

Lemma pick_loop_skips (choice : Z) (pre rest : list Event) (count : Z) :
  (∀ x, x ∈ pre → 0 ≤ Event_getChance x)%Z →
  (count + sum_chance pre ≤ choice)%Z →
  pick_loop choice (pre ++ rest) count = pick_loop choice rest (count + sum_chance pre).
Proof.
  revert count. induction pre as [|e pre IH]; intros count Hnn Hle; simpl in *.
  - by rewrite Z.add_0_r.
  - assert (0 ≤ Event_getChance e)%Z by (apply Hnn; by left).
    assert (0 ≤ sum_chance pre)%Z by (apply sum_chance_nonneg; intros; apply Hnn; by right).
    rewrite (proj2 (Z.ltb_ge choice (count + Event_getChance e))) by lia.
    rewrite andb_false_r, IH; [f_equal; lia | intros; apply Hnn; by right | lia].
Qed.

(** X17: Selection is proportional to weight: with nonnegative chances, every
    draw in the half-open interval of a candidate selects that candidate, so
    a candidate of chance [c] is selected by exactly [c] of the draws below
    the total, and no draw below the total selects nothing. *)
Theorem pick_loop_proportional (pre post : list Event) (event : Event) (draw : Z) :
  (∀ x, x ∈ pre → 0 ≤ Event_getChance x)%Z →
  (in_interval draw pre event →
   pick_loop draw (pre ++ event :: post) 0 = Some event) ∧
  ((0 ≤ draw < sum_chance (pre ++ event :: post))%Z →
   is_Some (pick_loop draw (pre ++ event :: post) 0)) ∧
  (sum_chance (pre ++ event :: post) =
   sum_chance pre + Event_getChance event + sum_chance post)%Z.
Proof.
  intros Hnn. split; [|split].
  - intros [Hlo Hhi]. rewrite pick_loop_skips by (done || lia). simpl.
    rewrite Z.add_0_l.
    by rewrite (proj2 (Z.leb_le _ _) Hlo), (proj2 (Z.ltb_lt _ _) Hhi).
  - intros Hdraw. destruct (pick_loop_total draw (pre ++ event :: post) 0) as [e ->];
      [lia | by eexists].
  - rewrite sum_chance_app. simpl. lia.
Qed.

(** X18: What [chooseFromEvents] returns is an event of the pool it searched, and
    one whose [prepare] succeeded in this very call; a pool given as the
    empty list is searched as no pool is: in the whole library. *)
Theorem chooseFromEvents_returns_prepared (self : Game) (char : nat)
    (events : option (list Event)) (state : option State) (w w' : World) (event : Event) :
  chooseFromEvents self char events state w = (Ok event, w') →
  event ∈ pool_of self events ∧
  (event, true) ∈ (prepare_all self char state (pool_of self events) w).1 ∧
  chooseFromEvents self char (Some []) state w = chooseFromEvents self char None state w.
Proof.
  intros Hrun. split; [|split; [|done]].
  - rewrite <- (prepare_all_events self char state (pool_of self events) w).
    revert Hrun. unfold chooseFromEvents, bind. rewrite prepare_loop_spec. simpl.
    set (run := prepare_all self char state (pool_of self events) w).
    intros Hrun. apply list_elem_of_fmap. exists (event, true). split; [done|].
    destruct (weighted run.1) as [|e l] eqn:Hw.
    + destruct (fallback run.1) as [d|] eqn:Hf; [|done].
      injection Hrun as <- _. by apply fallback_spec.
    + destruct (randint 0 _ run.2) as [[z|err] w1]; [|done].
      destruct (pick_loop z (e :: l) 0) as [picked|] eqn:Hpick; [|done].
      injection Hrun as <- _.
      destruct (pick_loop_first _ _ _ _ Hpick) as (pre & post & Hsplit & _).
      apply (weighted_spec run.1 picked). rewrite Hw, Hsplit.
      apply elem_of_app. right. by left.
  - revert Hrun. unfold chooseFromEvents, bind. rewrite prepare_loop_spec. simpl.
    set (run := prepare_all self char state (pool_of self events) w).
    intros Hrun.
    destruct (weighted run.1) as [|e l] eqn:Hw.
    + destruct (fallback run.1) as [d|] eqn:Hf; [|done].
      injection Hrun as <- _. by apply fallback_spec.
    + destruct (randint 0 _ run.2) as [[z|err] w1]; [|done].
      destruct (pick_loop z (e :: l) 0) as [picked|] eqn:Hpick; [|done].
      injection Hrun as <- _.
      destruct (pick_loop_first _ _ _ _ Hpick) as (pre & post & Hsplit & _).
      apply (weighted_spec run.1 picked). rewrite Hw, Hsplit.
      apply elem_of_app. right. by left.
Qed.

(** X19: Chances are not checked: when the prepared events of nonzero chance add
    up to a total that is not positive, [chooseFromEvents] fails in
    [randint] with [ValueError], after the [prepare] calls and without a
    draw. *)
Theorem chooseFromEvents_nonpositive_total (self : Game) (char : nat)
    (events : option (list Event)) (state : option State) (w : World) :
  let run := prepare_all self char state (pool_of self events) w in
  weighted run.1 ≠ [] → (sum_chance (weighted run.1) ≤ 0)%Z →
  chooseFromEvents self char events state w =
    (Raise (ValueError "empty range for randrange()"), run.2).
Proof.
  intros run Hne Hsum. unfold chooseFromEvents, bind. rewrite prepare_loop_spec.
  fold run. simpl. destruct (weighted run.1) as [|e l] eqn:Hw; [done|].
  unfold randint, randrange.
  rewrite (proj2 (Z.ltb_ge _ _)); [done|]. lia.
Qed.

Lemma trigger_length (depth : nat) (self : Game) (char : nat) (event : Event)
    (w w' : World) (results : list TextResult) :
  trigger depth self char event w = (Ok results, w') →
  1 ≤ length results ≤ depth.
Proof.
  revert event w results. induction depth as [|depth IH]; intros event w results; [done|].
  destruct (Event_trigger event w) as [[state subEvents] w1] eqn:Htr.
  destruct subEvents as [|s l].
  - rewrite (trigger_leaf depth self char event w w1 state Htr). intros [= <- <-].
    simpl. lia.
  - destruct (chooseFromEvents self char (Some (s :: l)) (Some state) w1)
      as [[sub|e] w2] eqn:Hchoose.
    + rewrite (trigger_step depth self char event sub w w1 w2 state (s :: l)) by done.
      destruct (trigger depth self char sub w2) as [[more|e] w3] eqn:Hsub; [|done].
      intros [= <- <-]. specialize (IH _ _ _ Hsub). simpl. lia.
    + simpl. unfold bind, call. rewrite Htr. simpl. by rewrite Hchoose.
Qed.

(** X20: [trigger] never returns an empty narrative and never one longer than the
    recursion depth it has; what it returns is always the rendering of a
    chain that starts with the event it was given; with no depth at all it
    raises [RecursionError], and a failure to choose a sub-event is its own
    failure, the texts rendered so far being lost. *)
Theorem trigger_results (depth : nat) (self : Game) (char : nat) (event : Event)
    (w : World) :
  trigger 0 self char event w = (Raise RecursionError, w) ∧
  (∀ results w', trigger depth self char event w = (Ok results, w') →
     1 ≤ length results ≤ depth ∧
     ∃ steps, chain self char event w steps w' ∧ results = render <$> steps ∧
              (step_event <$> head steps) = Some event) ∧
  (∀ state subEvents w1 e w2,
     Event_trigger event w = ((state, subEvents), w1) → subEvents ≠ [] →
     chooseFromEvents self char (Some subEvents) (Some state) w1 = (Raise e, w2) →
     trigger (S depth) self char event w = (Raise e, w2)).
Proof.
  split; [done|]. split.
  - intros results w' Hrun. split; [by eapply trigger_length|].
    destruct (trigger_ok_chain _ _ _ _ _ _ _ Hrun) as (steps & Hchain & ->).
    exists steps. split; [done|]. split; [done|].
    by destruct (chain_nonempty _ _ _ _ _ _ Hchain) as (first & rest & -> & <-).
  - intros state subEvents w1 e w2 Htr Hne Hchoose. simpl. unfold bind, call.
    rewrite Htr. simpl. destruct subEvents as [|s l]; [done|]. by rewrite Hchoose.
Qed.

Lemma round_loop_entries (depth : nat) (self : Game) (ts : list nat)
    (acc results : list (nat * list TextResult)) (w w' : World) :
  round_loop depth self ts acc w = (Ok results, w') →
  ∃ new, results = acc ++ new ∧ sublist new.*1 ts ∧
         Forall (λ entry, 1 ≤ length entry.2 ≤ depth) new.
Proof.
  revert acc w. induction ts as [|t ts IH]; intros acc w; simpl.
  - intros [= <- <-]. exists []. split; [by rewrite app_nil_r|]. split; constructor.
  - unfold bind at 1.
    destruct (Character.isAlive (Character.deref (world_heap w) t)); simpl.
    + intros Hrun. apply bind_inv_ok in Hrun as (event & w1 & _ & Hrun).
      apply bind_inv_ok in Hrun as (texts & w2 & Htr & Hrun).
      destruct (IH _ _ Hrun) as (new & -> & Hsub & Hall).
      exists ((t, texts) :: new). split; [by rewrite <- app_assoc|]. split.
      * simpl. by apply sublist_skip.
      * constructor; [|done]. simpl. by eapply trigger_length.
    + intros Hrun. destruct (IH _ _ Hrun) as (new & -> & Hsub & Hall).
      exists new. split; [done|]. split; [by apply sublist_cons | done].
Qed.

Lemma round_loop_turns (depth : nat) (self : Game) (ts : list nat)
    (acc results : list (nat * list TextResult)) (w w' : World) :
  round_loop depth self ts acc w = (Ok results, w') ↔
  ∃ entries, results = acc ++ entries ∧ turns depth self ts w entries w'.
Proof.
  revert acc w. induction ts as [|t ts IH]; intros acc w; cbn [round_loop].
  - split.
    + intros [= <- <-]. exists []. split; [by rewrite app_nil_r | constructor].
    + intros (entries & -> & Hturns). inversion Hturns; subst. by rewrite app_nil_r.
  - unfold bind at 1.
    destruct (Character.isAlive (Character.deref (world_heap w) t)) eqn:Halive;
      cbn [negb].
    + split.
      * intros Hrun. apply bind_inv_ok in Hrun as (event & w1 & Hchoose & Hrun).
        apply bind_inv_ok in Hrun as (texts & w2 & Htr & Hrun).
        apply IH in Hrun as (entries & -> & Hturns). exists ((t, texts) :: entries).
        split; [by rewrite <- app_assoc | by econstructor].
      * intros (entries & -> & Hturns).
        inversion Hturns as [|? ? ? ? ? Hdead|? ? ? event w1 texts w2 rest ? _ Hchoose Htr Hrest];
          subst; [congruence|].
        rewrite (bind_ok _ _ _ _ _ Hchoose), (bind_ok _ _ _ _ _ Htr).
        apply IH. exists rest. split; [by rewrite <- app_assoc | done].
    + rewrite IH. split.
      * intros (entries & -> & Hturns). exists entries. split; [done | by constructor].
      * intros (entries & -> & Hturns).
        inversion Hturns as [|? ? ? ? ? _ Hrest|? ? ? ? ? ? ? ? ? Hlive]; subst;
          [by exists entries | congruence].
Qed.

Lemma round_loop_raises (depth : nat) (self : Game) (pre post : list nat) (t : nat)
    (acc entries : list (nat * list TextResult)) (w w1 w2 : World) (e : exn) :
  turns depth self pre w entries w1 →
  Character.isAlive (Character.deref (world_heap w1) t) = true →
  chooseFromEvents self t None None w1 = (Raise e, w2) →
  round_loop depth self (pre ++ t :: post) acc w = (Raise e, w2).
Proof.
  intros Hturns. revert acc.
  induction Hturns as [w|t0 ts w entries w1 Hdead _ IH
                       |t0 ts w event w0 texts w3 entries w1 Hlive Hchoose Htr _ IH];
    intros acc Halive Hraise; cbn [app round_loop].
  - unfold bind at 1. rewrite Halive. cbn [negb].
    by rewrite (bind_raise _ _ _ _ _ Hraise).
  - unfold bind at 1. rewrite Hdead. cbn [negb]. by apply IH.
  - unfold bind at 1. rewrite Hlive. cbn [negb].
    rewrite (bind_ok _ _ _ _ _ Hchoose), (bind_ok _ _ _ _ _ Htr). by apply IH.
Qed.

(** X21: [round] returns exactly when the tributes take their turns in cast
    order: each tribute that is dead when its turn comes is passed over with
    nothing called for it, and for each living one an event is chosen from
    the library and triggered, its entry being the tribute with the texts.
    So the characters of the entries are a sublist of the cast and every
    entry holds at least one text.  When no event can be chosen for a living
    tribute at its turn, whichever tribute it is, the whole round raises with
    that exception, and the entries of the tributes before it are lost. *)
Theorem round_entries (depth : nat) (self : Game) (w : World) :
  (∀ results w', round depth self w = (Ok results, w') ↔
     turns depth self (tributes self) w results w') ∧
  (∀ results w', round depth self w = (Ok results, w') →
     sublist results.*1 (tributes self) ∧
     Forall (λ entry, 1 ≤ length entry.2 ≤ depth) results) ∧
  (∀ pre t post entries w1 e w2,
     tributes self = pre ++ t :: post →
     turns depth self pre w entries w1 →
     Character.isAlive (Character.deref (world_heap w1) t) = true →
     chooseFromEvents self t None None w1 = (Raise e, w2) →
     round depth self w = (Raise e, w2)).
Proof.
  split; [|split].
  - intros results w'. unfold round. rewrite round_loop_turns.
    split; [by intros (entries & -> & Hturns) | intros Hturns; by exists results].
  - intros results w' Hrun. unfold round in Hrun.
    destruct (round_loop_entries _ _ _ _ _ _ _ Hrun) as (new & -> & Hsub & Hall).
    done.
  - intros pre t post entries w1 e w2 Hts Hturns Halive Hraise. unfold round.
    rewrite Hts. by eapply round_loop_raises.
Qed.

End GameMore.

Section MoreSample.
Import Character Check Game Sample.

Lemma addTag_no_duplicates_witness :
  NoDup (tags (addTag (ash None 0 1) "wet")) ∧
  hasTag (addTag (ash None 0 1) "wet") "wet" = true.
Proof.
  destruct (addTag_no_duplicates (ash None 0 1) "wet") as (Hnd & Hhas & _).
  - apply (bool_decide_unpack _). vm_compute. exact I.
  - split; [exact Hnd | exact Hhas].
Defined.

Lemma removeTag_addTag_witness :
  removeTag (addTag (ash None 0 1) "wet") "wet" = Ok (ash None 0 1).
Proof.
  destruct (removeTag_addTag (ash None 0 1) "wet") as (_ & Hback).
  - reflexivity.
  - exact Hback.
Defined.

Lemma eq_implies_same_hash_witness :
  __hash__ (ash None 1 1) = __hash__ (ash None 2 5).
Proof. apply eq_implies_same_hash. reflexivity. Defined.

Lemma isAllyOf_symmetric_witness :
  isAllyOf ash_and_birch 0 1 = isAllyOf ash_and_birch 1 0 ∧
  isAllyOf ash_and_birch 2 2 = negb (isAlone ash_and_birch 2).
Proof.
  destruct (isAllyOf_symmetric ash_and_birch 0 1) as (Hsym & _).
  - apply (bool_decide_unpack _). vm_compute. exact I.
  - apply (bool_decide_unpack _). vm_compute. exact I.
  - apply (bool_decide_unpack _). vm_compute. exact I.
  - split; [exact Hsym | reflexivity].
Defined.

Lemma join_then_leave_witness :
  ∃ h', leaveAlliance 2 (joinAlliance 2 1 ash_and_birch) = (Ok (), h') ∧
        list_at h' 1 = list_at ash_and_birch 1 ∧ isAlone h' 2 = true.
Proof.
  destruct (join_then_leave ash_and_birch 2 1) as (h' & Hrun & Hlist & Halone & _).
  - apply (bool_decide_unpack _). vm_compute. exact I.
  - apply (bool_decide_unpack _). vm_compute. exact I.
  - apply (bool_decide_unpack _). vm_compute. exact I.
  - reflexivity.
  - intros Hnil. vm_compute in Hnil. discriminate Hnil.
  - exists h'. split; [exact Hrun|]. split; [exact Hlist | exact Halone].
Defined.

Lemma leaveAlliance_not_listed_witness :
  leaveAlliance 1 ash_on_birch_list =
    (Raise (ValueError "list.remove(x): x not in list"), ash_on_birch_list).
Proof.
  apply leaveAlliance_not_listed.
  - reflexivity.
  - apply Forall_forall. apply (bool_decide_unpack _). vm_compute. exact I.
Defined.

Lemma reset_keeps_membership_witness :
  isAlone (reset 0 ash_and_birch) 0 = true ∧
  isAllyOf (reset 0 ash_and_birch) 1 0 = true.
Proof.
  destruct (reset_keeps_membership ash_and_birch 0) as (Halone & _ & _ & Hothers & _).
  - apply (bool_decide_unpack _). vm_compute. exact I.
  - apply (bool_decide_unpack _). vm_compute. exact I.
  - split; [exact Halone|]. destruct (Hothers 1) as (_ & Hally).
    + apply (bool_decide_unpack _). vm_compute. exact I.
    + discriminate.
    + apply Hally. apply (bool_decide_unpack _). vm_compute. exact I.
Defined.

Lemma itemeq_without_name_witness :
  __init__ cItemCheck [ItemCheck_BY_NAME; "x"] no_valids =
    (Ok (ItemCheck ItemCheck_BY_NAME "x" []), no_valids) ∧
  check (ItemCheck ItemCheck_BY_NAME "x" []) 0 the_state armed_world =
    (Raise (IndexError "list index out of range"), armed_world).
Proof.
  destruct (itemeq_without_name "x" no_valids no_valids 0 the_state armed_world)
    as (Hinit & Hcheck & _).
  - reflexivity.
  - split; [exact Hinit | exact Hcheck].
Defined.

Lemma pick_loop_proportional_witness :
  pick_loop 2 ([hunt] ++ feast :: [saga]) 0 = Some feast.
Proof.
  destruct (@pick_loop_proportional _ _ _ _ event_api [hunt] [saga] feast 2)
    as (Hpick & _).
  - apply sample_chances_nonneg. repeat constructor; vm_compute; discriminate.
  - apply Hpick. split; vm_compute; [discriminate | reflexivity].
Defined.

Lemma chooseFromEvents_returns_prepared_witness :
  (saga, true) ∈ (prepare_all arena 0 None (pool_of arena None)
                     (world_of three_tributes [5%Z])).1.
Proof.
  destruct (chooseFromEvents_returns_prepared arena 0 None None
              (world_of three_tributes [5%Z]) (world_of three_tributes []) saga)
    as (_ & Hprepared & _).
  - reflexivity.
  - exact Hprepared.
Defined.

Lemma chooseFromEvents_nonpositive_total_witness :
  chooseFromEvents cursed_arena 0 None None calm =
    (Raise (ValueError "empty range for randrange()"), calm).
Proof.
  apply (chooseFromEvents_nonpositive_total cursed_arena 0 None None calm).
  - discriminate.
  - vm_compute. discriminate.
Defined.

End MoreSample.
